(** * Streaming anomaly scoring: [AnomalyDetector.get_score] of [_rrcf.py]

    A shallow embedding of the detector of [_rrcf.py] and of the part of
    [main_receiver.py] that consumes its scores.

    - numpy [float64] values are IEEE 754 binary64 numbers: Rocq's
      primitive floats, whose operations round to nearest even as the
      hardware does.  A one-dimensional [float64] array is a [list float].
    - The detector object is a record; a call of [get_score] maps the
      record and the state of numpy's global random generator to the
      updated record, the updated generator state and the result.
    - The random cut trees ([rrcf.RCTree]) and the random generator
      ([np.random]) are libraries outside the repository: [get_score] is
      written against an interface that lists the operations it calls and
      what they do to the [leaves] dictionary when they return.
    - A call of a feature function or of a method of a tree returns or
      raises; an exception leaves [get_score] at once, with what had been
      assigned until then. *)

From Stdlib Require Import Floats ZArith.
From stdpp Require Import gmap list strings.

#[local] Set Warnings "-inexact-float".
#[local] Open Scope float_scope.

(** ** numpy arrays of [float64] *)

Abbreviation vec := (list float).

(** [a - b], [a + b], [a / b] on arrays of one shape. *)
Definition vsub (a b : vec) : vec := zip_with PrimFloat.sub a b.
Definition vadd (a b : vec) : vec := zip_with PrimFloat.add a b.
Definition vdiv (a b : vec) : vec := zip_with PrimFloat.div a b.

(** [c * a] and [a + c] with a scalar [c]. *)
Definition vscale (c : float) (a : vec) : vec := map (PrimFloat.mul c) a.
Definition vadd_scalar (a : vec) (c : float) : vec := map (fun x => x + c) a.

(** [np.abs(a)] and [np.ones_like(a)]. *)
Definition np_abs (a : vec) : vec := map PrimFloat.abs a.
Definition np_ones_like (a : vec) : vec := map (fun _ => 1) a.

(** [np.array(list(buf)).flatten()]: the rows one after the other. *)
Definition flatten (rows : list vec) : vec := concat rows.

Definition float_of_nat (n : nat) : float :=
  PrimFloat.of_uint63 (Uint63.of_Z (Z.of_nat n)).

(** [np.mean(scores)]: the sum over the count; [nan] for no scores.  The sum
    is taken left to right (numpy adds long arrays in blocks, which can
    differ in the last bits). *)
Definition np_sum (l : vec) : float := fold_left PrimFloat.add l 0.
Definition np_mean (l : vec) : float := np_sum l / float_of_nat (length l).

(** ** Exceptions and results *)

Inductive exn : Type :=
  | ValueError       (* [min()] of an empty sequence; a check of numpy *)
  | TypeError        (* arithmetic on [None]; a missing argument *)
  | OverflowError    (* [uniform] over a range that is not finite *)
  | AssertionError   (* an [assert] of rrcf *)
  | KeyError.        (* an index that is not a key of [leaves] *)

(** What one call of [get_score] does: the two [return] statements are kept
    apart, [returned] is the value the caller receives. *)
Inductive result : Type :=
  | NotReady              (* [return 0.0], the history is still too short *)
  | Score (v : float)     (* [return np.mean(scores)] *)
  | Raised (e : exn).

Definition returned (r : result) : option float :=
  match r with
  | NotReady => Some 0
  | Score v => Some v
  | Raised _ => None
  end.

Definition is_score (r : result) : bool :=
  match r with Score _ => true | _ => false end.

Definition is_raised (r : result) : bool :=
  match r with Raised _ => true | _ => false end.

(** [main_receiver.on_message] keeps the scores it received and computes its
    threshold from [[s for s in score_history if s > 0.0]]. *)
Definition valid_scores (score_history : vec) : vec :=
  List.filter (fun s => 0 <? s) score_history.

(** The last [k] entries of a list. *)
Definition last_n {A : Type} (k : nat) (l : list A) : list A :=
  drop (length l - k) l.

(** ** Constants and statistics of [main_receiver.py] *)

Definition FS : float := 25000.
Definition MAX_PLOT_POINTS : nat := Z.to_nat 6000.
Definition WARMUP_TIME : float := 30.0.
Definition ANOMALY_THRESHOLD : float := 3.0.

(** [np.std(a)]: the root of the mean squared distance to the mean. *)
Definition np_std (l : vec) : float :=
  let m := np_mean l in
  PrimFloat.sqrt (np_mean (map (fun x => (x - m) * (x - m)) l)).

(** The judgement of [on_message]: [is_anomaly] for a new score, from the
    clock and the scores received before. *)
Definition upper_threshold (valid : vec) : float :=
  np_mean valid + ANOMALY_THRESHOLD * np_std valid.

Definition judge (current_time : float) (score_history : vec) (score : float)
    : bool :=
  if (WARMUP_TIME <=? current_time) && bool_decide (0 < length score_history)%nat
  then
    let valid := valid_scores score_history in
    if bool_decide (0 < length valid)%nat
    then upper_threshold valid <? score
    else false
  else false.

(** The clock of the receiver after [k] recorded messages: [k] times
    [current_time += 0.1], from [0]. *)
Definition clock (k : nat) : float := Nat.iter k (fun t => t + 0.1) 0.

(** ** [sender_sim.py] *)

Definition WINDOW_SIZE : nat := 2500.

(** [data[start:stop]] for [start <= stop]. *)
Definition slice {A : Type} (data : list A) (start stop : nat) : list A :=
  take (stop - start) (drop start data).

(** The loop of [start_sender] for a window size: the chunks it publishes,
    in order. *)
Definition publish (window : nat) (vibration_data : vec) : list vec :=
  let num_chunks := (length vibration_data / window)%nat in
  map (fun i =>
         let start_idx := (i * window)%nat in
         let end_idx := (start_idx + window)%nat in
         slice vibration_data start_idx end_idx)
      (seq 0 num_chunks).

Definition start_sender (vibration_data : vec) : list vec :=
  publish WINDOW_SIZE vibration_data.

(** ** [mabiki_renketu.py] *)

(** Step 2 of [process_and_save_waveform]: an odd last sample is cut off,
    then [(raw[0::2] + raw[1::2]) / 2]. *)
Fixpoint evens (l : vec) : vec :=
  match l with
  | x :: _ :: rest => x :: evens rest
  | [x] => [x]
  | [] => []
  end.

Definition odds (l : vec) : vec :=
  match l with
  | [] => []
  | _ :: rest => evens rest
  end.

Definition downsample (raw_signal : vec) : vec :=
  let raw_signal :=
    if bool_decide (length raw_signal mod 2 ≠ 0)%nat
    then take (length raw_signal - 1) raw_signal
    else raw_signal in
  map (fun s => s / 2) (vadd (evens raw_signal) (odds raw_signal)).

(** Step 3: the rows [(time, value)] written by the loop over
    [range(num_repeats)], given the rows written so far. *)
Definition dt : float := 1.0 / 25000.

Definition block (resampled_single : vec) (current_total_samples : nat)
    : list (float * float) :=
  let times :=
    map (fun j => float_of_nat (j + current_total_samples) * dt)
        (seq 0 (length resampled_single)) in
  zip times resampled_single.

Fixpoint write_blocks (resampled_single : vec) (num_repeats : nat)
    (current_total_samples : nat) : list (float * float) :=
  match num_repeats with
  | O => []
  | S n =>
      block resampled_single current_total_samples ++
      write_blocks resampled_single n
        (current_total_samples + length resampled_single)
  end.

(** Step 1, the loop over the rows of the CSV file.  [strip] and [float]
    are Python's; a row is the list of its fields. *)
Section ReadRows.
Variable strip : string -> string.
Variable py_float : string -> option float.

(** [raw_data] when the loop is left, at the end of the rows or by
    [break]; the flag is [is_data_section]. *)
Fixpoint read_rows (rows : list (list string)) (is_data_section : bool)
    (raw_data : vec) : vec :=
  match rows with
  | [] => raw_data
  | row :: rest =>
      match row with
      | [] => read_rows rest is_data_section raw_data
      | field0 :: _ =>
          let tag := strip field0 in
          if String.eqb tag "#EndHeader" then read_rows rest true raw_data
          else if String.eqb tag "#BeginMark" then raw_data
          else if is_data_section then
            match row !! 2%nat with
            | None => read_rows rest is_data_section raw_data
            | Some field2 =>
                match py_float field2 with
                | None => read_rows rest is_data_section raw_data
                | Some x => read_rows rest is_data_section (raw_data ++ [x])
                end
            end
          else read_rows rest is_data_section raw_data
      end
  end.

(** What the statements about the loop speak of: the tag of a row, when it
    has a first field, the number its third field holds, when [float]
    accepts it, and a row that carries neither of the two tags. *)
Definition tag_of (row : list string) : option string :=
  match row with
  | [] => None
  | field0 :: _ => Some (strip field0)
  end.

Definition value_of (row : list string) : option float :=
  row !! 2%nat ≫= py_float.

Definition unmarked (row : list string) : Prop :=
  tag_of row ≠ Some "#EndHeader"%string ∧ tag_of row ≠ Some "#BeginMark"%string.

(** The whole function: the rows it writes, or [None] when it returns
    after "Could not find valid data". *)
Definition process_and_save_waveform (rows : list (list string))
    (num_repeats : nat) : option (list (float * float)) :=
  let raw_data := read_rows rows false [] in
  match raw_data with
  | [] => None
  | _ => Some (write_blocks (downsample raw_data) num_repeats 0)
  end.

End ReadRows.

(** ** Feature functions *)

(** A feature function is a callable with a [__name__]; it is called either
    as [func(data)] or as [func(data, fs=fs)], and it returns a number or
    raises. *)
Record feature_function : Type := {
  fn_name : string;
  fn_call : vec -> option float -> exn + float
}.

(** [vibe_analyzer.VibrationFeatures.calc_rms]:
    [np.sqrt(np.mean(np.square(data)))].  numpy warns about an empty chunk
    and returns [nan]; it does not raise. *)
Definition calc_rms : feature_function :=
  {| fn_name := "calc_rms";
     fn_call := fun data _ =>
       inr (PrimFloat.sqrt (np_mean (map (fun x => x * x) data))) |}.

(** [vibe_analyzer.VibrationFeatures.calc_spectral_centroid].  The
    transform is numpy's: [centroid] stands for what lines 26 to 38 do with
    a chunk of at least one sample.  For a chunk of no samples
    [np.fft.rfft] raises [ValueError] (line 30); a call without [fs] is a
    call with a missing argument. *)
Definition calc_spectral_centroid (centroid : vec -> float -> exn + float)
    : feature_function :=
  {| fn_name := "calc_spectral_centroid";
     fn_call := fun data fs =>
       match fs with
       | None => inl TypeError
       | Some fs =>
           match data with
           | [] => inl ValueError
           | _ :: _ => centroid data fs
           end
       end |}.

(** ** The libraries [get_score] calls *)

(** numpy's global random generator: [np.random.normal(loc, scale, shape)]
    draws one sample per entry and advances the generator. *)
Class NumpyRandom : Type := {
  rng : Type;
  np_random_normal : float -> float -> nat -> rng -> vec * rng;
  np_random_normal_shape loc scale n g :
    length (np_random_normal loc scale n g).1 = n
}.

(** [rrcf.RCTree]: [leaves] maps the index of every point of the tree to
    its leaf; only its keys matter to [get_score].  The tree draws its cuts
    from numpy's generator.  Each of the three methods returns or raises:
    rrcf refuses a point it cannot place (a coordinate that is [nan] or
    infinite, once the tree holds a point) and an index that is already a
    key, and [forget_point] and [codisp] refuse an index that is not a key.
    The interface says what a call that returns has done to the keys of
    [leaves], and nothing about when a call returns.  A call that raises
    leaves the tree as it was: rrcf raises before it links or unlinks a
    leaf. *)
Class RCTreeLib `{NumpyRandom} : Type := {
  RCTree : Type;
  RCTree_new : RCTree;
  leaves : RCTree -> gset nat;
  insert_point : RCTree -> vec -> nat -> rng -> (exn + RCTree) * rng;
  forget_point : RCTree -> nat -> exn + RCTree;
  codisp : RCTree -> nat -> exn + float;
  leaves_new : leaves RCTree_new = ∅;
  leaves_insert t p i g t' g' :
    insert_point t p i g = (inr t', g') -> leaves t' = {[ i ]} ∪ leaves t;
  leaves_forget t i t' :
    forget_point t i = inr t' -> leaves t' = leaves t ∖ {[ i ]}
}.

(** [min(keys)]. *)
Definition py_min (keys : list nat) : exn + nat :=
  match keys with
  | [] => inl ValueError
  | k :: rest => inr (foldr Nat.min k rest)
  end.

Section Detector.
Context {Random : NumpyRandom} {Trees : RCTreeLib}.

(** ** The detector *)

Record AnomalyDetector : Type := {
  feature_functions : list feature_function;
  shingle_size : nat;
  num_features : nat;
  forest : list RCTree;
  tree_size : nat;
  shingle_buffer : list vec;
  total_points : nat;
  mean : option vec;
  std : option vec;
  alpha : float
}.

(** [AnomalyDetector.__init__]. *)
Definition init (ffs : list feature_function)
    (shingle_size num_trees tree_size : nat) : AnomalyDetector :=
  {| feature_functions := ffs;
     shingle_size := shingle_size;
     num_features := length ffs;
     forest := replicate num_trees RCTree_new;
     tree_size := tree_size;
     shingle_buffer := [];
     total_points := 0;
     mean := None;
     std := None;
     alpha := 0.01 |}.

(** *** 1. Feature extraction *)

Definition takes_fs (f : feature_function) : bool :=
  bool_decide (fn_name f ∈ ["calc_spectral_centroid"; "calc_centroid"]).

Definition call_feature (data : vec) (fs : float) (f : feature_function)
    : exn + float :=
  if takes_fs f then fn_call f data (Some fs) else fn_call f data None.

(** The loop [for func in self.feature_functions]: the first function that
    raises ends it, and the call. *)
Fixpoint extract_features (ffs : list feature_function) (data : vec) (fs : float)
    : exn + vec :=
  match ffs with
  | [] => inr []
  | func :: rest =>
      match call_feature data fs func with
      | inl e => inl e
      | inr val =>
          match extract_features rest data fs with
          | inl e => inl e
          | inr features => inr (val :: features)
          end
      end
  end.

(** A chunk that gets through the loop, and the number of such chunks in a
    stream of calls. *)
Definition extracts (ffs : list feature_function) (c : vec * float) : bool :=
  match extract_features ffs c.1 c.2 with
  | inl _ => false
  | inr _ => true
  end.

Definition fed (ffs : list feature_function) (stream : list (vec * float)) : nat :=
  length (List.filter (extracts ffs) stream).

(** *** Running mean and deviation

    [update_stats] is the [if self.mean is None: ... else: ...] statement:
    the new values of [self.mean] and [self.std].  In the [else] branch
    [self.mean] is assigned first, and [self.std] is computed from the new
    mean; a [std] that is still [None] there makes the product raise after
    [self.mean] was assigned. *)
Definition ema (a : float) (old new : vec) : vec :=
  vadd (vscale (1 - a) old) (vscale a new).

Definition update_stats (a : float) (m s : option vec) (features : vec)
    : option vec * option vec :=
  match m with
  | None => (Some features, Some (np_ones_like features))
  | Some m0 =>
      let m1 := ema a m0 features in
      match s with
      | None => (Some m1, None)
      | Some s0 => (Some m1, Some (ema a s0 (np_abs (vsub features m1))))
      end
  end.

(** [(features - self.mean) / (self.std + 1e-9)]. *)
Definition zscore (features m s : vec) : vec :=
  vdiv (vsub features m) (vadd_scalar s 1e-9).

(** *** 2. Shingle buffer: [append], then [pop(0)] when too long *)
Definition push_shingle (k : nat) (buf : list vec) (v : vec) : list vec :=
  let buf1 := buf ++ [v] in
  if bool_decide (k < length buf1)%nat then tail buf1 else buf1.

(** *** Forest update: the body of [for tree in self.forest] *)

(** The eviction: [if len(tree.leaves) >= self.tree_size: ...]. *)
Definition evict (cap : nat) (t : RCTree) : exn + RCTree :=
  if bool_decide (cap ≤ size (leaves t))%nat then
    match py_min (elements (leaves t)) with
    | inl e => inl e
    | inr oldest_idx => forget_point t oldest_idx
    end
  else inr t.

(** The loop.  Trees are updated in place: when the body raises, the trees
    before the raising one keep their update, the raising one keeps what
    the body had done to it until then (a point forgotten, a point
    inserted) and the others are as they were.  The scores come back in the
    order the trees are visited. *)
Fixpoint score_forest (cap : nat) (shingle : vec) (idx : nat)
    (ts : list RCTree) (g : rng) : list RCTree * rng * (exn + vec) :=
  match ts with
  | [] => ([], g, inr [])
  | t :: rest =>
      match evict cap t with
      | inl e => (t :: rest, g, inl e)
      | inr t1 =>
          match insert_point t1 shingle idx g with
          | (inl e, g1) => (t1 :: rest, g1, inl e)
          | (inr t2, g1) =>
              match codisp t2 idx with
              | inl e => (t2 :: rest, g1, inl e)
              | inr c =>
                  let '(rest', g2, r) := score_forest cap shingle idx rest g1 in
                  (t2 :: rest', g2,
                   match r with
                   | inl e => inl e
                   | inr scores => inr (c :: scores)
                   end)
              end
          end
      end
  end.

(** *** [get_score] *)
Definition get_score (self : AnomalyDetector) (g : rng)
    (time_series_data : vec) (fs : float) : AnomalyDetector * rng * result :=
  match extract_features (feature_functions self) time_series_data fs with
  | inl e => (self, g, Raised e)
  | inr features =>
  let '(m, s) := update_stats (alpha self) (mean self) (std self) features in
  match m, s with
  | Some m1, Some s1 =>
      let normalized_features := zscore features m1 s1 in
      let buf := push_shingle (shingle_size self) (shingle_buffer self)
                   normalized_features in
      let self1 :=
        {| feature_functions := feature_functions self;
           shingle_size := shingle_size self;
           num_features := num_features self;
           forest := forest self;
           tree_size := tree_size self;
           shingle_buffer := buf;
           total_points := total_points self;
           mean := m; std := s; alpha := alpha self |} in
      if bool_decide (length buf < shingle_size self)%nat then
        (self1, g, NotReady)
      else
        let flat := flatten buf in
        let '(noise, g1) := np_random_normal 0 1e-10 (length flat) g in
        let shingle := vadd flat noise in
        let '(ts, g2, r) :=
          score_forest (tree_size self) shingle (total_points self)
            (forest self) g1 in
        let self2 (n : nat) :=
          {| feature_functions := feature_functions self;
             shingle_size := shingle_size self;
             num_features := num_features self;
             forest := ts;
             tree_size := tree_size self;
             shingle_buffer := buf;
             total_points := n;
             mean := m; std := s; alpha := alpha self |} in
        match r with
        | inl e => (self2 (total_points self), g2, Raised e)
        | inr scores => (self2 (S (total_points self)), g2, Score (np_mean scores))
        end
  | _, _ =>
      ({| feature_functions := feature_functions self;
          shingle_size := shingle_size self;
          num_features := num_features self;
          forest := forest self;
          tree_size := tree_size self;
          shingle_buffer := shingle_buffer self;
          total_points := total_points self;
          mean := m; std := std self; alpha := alpha self |}, g, Raised TypeError)
  end
  end.

(** [main_receiver.on_message] calls [get_score] for one chunk after the
    other and goes on after an exception: a stream of [(data, fs)] calls. *)
Fixpoint run (self : AnomalyDetector) (g : rng) (stream : list (vec * float))
    : AnomalyDetector * rng * list result :=
  match stream with
  | [] => (self, g, [])
  | (data, fs) :: rest =>
      let '(self1, g1, r) := get_score self g data fs in
      let '(self2, g2, rs) := run self1 g1 rest in
      (self2, g2, r :: rs)
  end.

Definition final (x : AnomalyDetector * rng * list result) : AnomalyDetector := x.1.1.
Definition final_rng (x : AnomalyDetector * rng * list result) : rng := x.1.2.
Definition results (x : AnomalyDetector * rng * list result) : list result := x.2.

(** The value of [normalized_features] in a call that reaches line 56, and
    the values over a stream of calls. *)
Definition normalized_features (self : AnomalyDetector)
    (time_series_data : vec) (fs : float) : option vec :=
  match extract_features (feature_functions self) time_series_data fs with
  | inl _ => None
  | inr features =>
      match update_stats (alpha self) (mean self) (std self) features with
      | (Some m1, Some s1) => Some (zscore features m1 s1)
      | _ => None
      end
  end.

Fixpoint normalized_stream (self : AnomalyDetector) (g : rng)
    (stream : list (vec * float)) : list vec :=
  match stream with
  | [] => []
  | (data, fs) :: rest =>
      let '(self1, g1, _) := get_score self g data fs in
      option_list (normalized_features self data fs) ++
      normalized_stream self1 g1 rest
  end.

(** *** Invariants of the detector *)

(** What the loop does to one tree on a run without exception. *)
Definition tree_updated (cap : nat) (shingle : vec) (idx : nat)
    (t t' : RCTree) : Prop :=
  ∃ t1 g0 g1, evict cap t = inr t1 ∧
              insert_point t1 shingle idx g0 = (inr t', g1).

(** An exception of a method of a tree, as [get_score] calls them:
    [forget_point] and [codisp] with a key of [leaves]. *)
Definition rrcf_raises (e : exn) : Prop :=
  (∃ t i, i ∈ leaves t ∧ forget_point t i = inl e) ∨
  (∃ t p i g, (insert_point t p i g).1 = inl e) ∨
  (∃ t i, i ∈ leaves t ∧ codisp t i = inl e).

(** The detector between two calls. *)
Record wf (d : AnomalyDetector) : Prop := {
  wf_stats : mean d = None <-> std d = None;
  wf_buffer : (length (shingle_buffer d) ≤ shingle_size d)%nat;
  wf_forest : Forall (fun t => (size (leaves t) ≤ tree_size d)%nat) (forest d)
}.

(** What [__init__] fixes and [get_score] never assigns. *)
Definition same_config (d d' : AnomalyDetector) : Prop :=
  feature_functions d' = feature_functions d ∧
  shingle_size d' = shingle_size d ∧
  tree_size d' = tree_size d ∧
  alpha d' = alpha d ∧
  length (forest d') = length (forest d).

(** Two detectors that differ at most in their feature functions. *)
Definition agree (d1 d2 : AnomalyDetector) : Prop :=
  shingle_size d1 = shingle_size d2 ∧
  forest d1 = forest d2 ∧
  tree_size d1 = tree_size d2 ∧
  shingle_buffer d1 = shingle_buffer d2 ∧
  total_points d1 = total_points d2 ∧
  mean d1 = mean d2 ∧
  std d1 = std d2 ∧
  alpha d1 = alpha d2.

(** Both statistics are set: some call has passed line 46. *)
Definition stats_set (d : AnomalyDetector) : Prop :=
  ∃ m0 s0, mean d = Some m0 ∧ std d = Some s0.

(** A call that went through the feature functions and did not return:
    the loop over the forest raised. *)
Definition answered (ffs : list feature_function) (c : vec * float)
    (r : result) : Prop :=
  extracts ffs c = true -> is_raised r = false.

(** *** The receiver of [main_receiver.py]

    The globals of the module and the detector they share.  A message is
    the list under ["data"] of its payload, or [None] for a payload that
    [json.loads] or the lookup of ["data"] refuses. *)
Record Receiver : Type := {
  detector : AnomalyDetector;
  score_history : vec;
  time_history : vec;
  waveform_data_all : vec;
  anomaly_flags : list bool;
  current_time : float;
  last_update_time : float;
  message_count : nat
}.

Definition receiver_start (d : AnomalyDetector) : Receiver :=
  {| detector := d;
     score_history := []; time_history := [];
     waveform_data_all := []; anomaly_flags := [];
     current_time := 0; last_update_time := 0; message_count := 0 |}.

(** The detector of the module (lines 25 to 30): the root mean square and
    twice the spectral centroid, shingle size 10, capacity 100 and the
    default of 200 trees. *)
Definition receiver_detector (centroid : vec -> float -> exn + float)
    : AnomalyDetector :=
  init [calc_rms; calc_spectral_centroid centroid;
        calc_spectral_centroid centroid] 10 200 100.

(** [on_message]: everything happens inside [try]; an exception leaves
    what had not been assigned yet as it was.  The lines printed are not
    part of the state. *)
Definition on_message (st : Receiver) (g : rng) (msg : option vec)
    : Receiver * rng :=
  match msg with
  | None => (st, g)
  | Some waveform_chunk =>
      let '(d1, g1, r) := get_score (detector st) g waveform_chunk FS in
      match returned r with
      | None =>
          ({| detector := d1;
              score_history := score_history st;
              time_history := time_history st;
              waveform_data_all := waveform_data_all st;
              anomaly_flags := anomaly_flags st;
              current_time := current_time st;
              last_update_time := last_update_time st;
              message_count := message_count st |}, g1)
      | Some score =>
          let wave := waveform_data_all st ++ waveform_chunk in
          let is_anomaly := judge (current_time st) (score_history st) score in
          let scores := score_history st ++ [score] in
          let times := time_history st ++ [current_time st] in
          let flags := anomaly_flags st ++ [is_anomaly] in
          let now := current_time st + 0.1 in
          let full := bool_decide (MAX_PLOT_POINTS < length scores)%nat in
          ({| detector := d1;
              score_history := if full then tail scores else scores;
              time_history := if full then tail times else times;
              waveform_data_all := if full then drop 2500 wave else wave;
              anomaly_flags := if full then tail flags else flags;
              current_time := now;
              last_update_time := now;
              message_count := S (message_count st) |}, g1)
      end
  end.

Fixpoint receive (st : Receiver) (g : rng) (msgs : list (option vec))
    : Receiver * rng :=
  match msgs with
  | [] => (st, g)
  | msg :: rest =>
      let '(st1, g1) := on_message st g msg in
      receive st1 g1 rest
  end.

(** *** Further invariants *)

(** The indices a tree holds after [n] insertions at capacity [cap]: the
    last [min n cap]. *)
Definition window (cap n : nat) : gset nat :=
  set_seq (n - Nat.min n cap) (Nat.min n cap).

Definition windowed (d : AnomalyDetector) : Prop :=
  Forall (fun t => leaves t = window (tree_size d) (total_points d)) (forest d).

(** The shapes: every array has one entry per feature function. *)
Record shaped (d : AnomalyDetector) : Prop := {
  shaped_mean : ∀ m, mean d = Some m -> length m = length (feature_functions d);
  shaped_std : ∀ s, std d = Some s -> length s = length (feature_functions d);
  shaped_buffer :
    Forall (fun v => length v = length (feature_functions d)) (shingle_buffer d)
}.

(** The receiver between two messages. *)
Record rx_ok (st : Receiver) : Prop := {
  rx_scores :
    length (score_history st) = Nat.min (message_count st) MAX_PLOT_POINTS;
  rx_flags :
    length (anomaly_flags st) = Nat.min (message_count st) MAX_PLOT_POINTS;
  rx_times :
    time_history st =
    last_n MAX_PLOT_POINTS (map clock (seq 0 (message_count st)));
  rx_clock : current_time st = clock (message_count st);
  rx_last : last_update_time st = current_time st;
  rx_warm :
    (message_count st ≤ 300)%nat ->
    Forall (fun flag => flag = false) (anomaly_flags st)
}.

(** The messages that carry a list of samples. *)
Definition decodable (msgs : list (option vec)) : list vec := omap id msgs.

End Detector.

(** ** An implementation of the two libraries

    A small generator and a small tree that implement the interfaces, to run
    [get_score] on concrete inputs. *)
Module Reference.

(** The generator state is a number; a draw steps it and derives a sample
    [loc + scale * u] with [u] one of [-1], [0], [1]. *)
Definition step (g : Z) : Z := ((g * 1103515245 + 12345) mod 2147483648)%Z.

Definition sample (loc scale : float) (g : Z) : float :=
  loc + scale * (PrimFloat.of_uint63 (Uint63.of_Z (g mod 3)) - 1).

Fixpoint draw (loc scale : float) (n : nat) (g : Z) : vec * Z :=
  match n with
  | O => ([], g)
  | S n' =>
      let g1 := step g in
      let '(rest, g2) := draw loc scale n' g1 in
      (sample loc scale g1 :: rest, g2)
  end.

Lemma length_draw loc scale n g : length (draw loc scale n g).1 = n.
Proof.
  revert g. induction n as [|n IH]; intros g; simpl; [done|].
  specialize (IH (step g)). destruct (draw loc scale n (step g)).
  simpl in *. by rewrite IH.
Qed.

#[export] Instance random : NumpyRandom :=
  {| rng := Z; np_random_normal := draw; np_random_normal_shape := length_draw |}.

(** The tree keeps its points in the order of insertion, as if every
    insertion had cut the new point off at the root: the newest point hangs
    off the root, the oldest two are the deepest pair. *)
Definition chain : Type := list (nat * vec).

Definition keys (t : chain) : gset nat := list_to_set (map fst t).

Definition finite (p : vec) : bool := forallb PrimFloat.is_finite p.

(** The first point becomes the root, whatever it is.  A later point needs
    a new index and a bounding box with finite sides: with a coordinate
    that is [nan] or infinite, in the point or in the tree, the cut cannot
    be drawn.  A refused point draws nothing. *)
Definition insert (t : chain) (p : vec) (i : nat) (g : Z) : (exn + chain) * Z :=
  match t with
  | [] => (inr [(i, p)], step g)
  | _ :: _ =>
      if bool_decide (i ∈ keys t) then (inl AssertionError, g)
      else if finite p && forallb (fun kp => finite kp.2) t
      then (inr (t ++ [(i, p)]), step g)
      else (inl OverflowError, g)
  end.

Definition forget (t : chain) (i : nat) : exn + chain :=
  if bool_decide (i ∈ keys t)
  then inr (List.filter (fun kp => negb (Nat.eqb kp.1 i)) t)
  else inl KeyError.

Fixpoint position (i : nat) (t : chain) : option nat :=
  match t with
  | [] => None
  | (k, _) :: rest =>
      if bool_decide (k = i) then Some 0%nat else S <$> position i rest
  end.

(** [0] for the only point of a tree (the leaf is the root); otherwise the
    largest ratio of sibling size to subtree size on the way to the root,
    which in this shape is reached at the parent of the leaf. *)
Definition chain_codisp (t : chain) (i : nat) : exn + float :=
  match position i t with
  | None => inl KeyError
  | Some p =>
      inr (if bool_decide (length t ≤ 1)%nat then 0
           else float_of_nat (Nat.max p 1))
  end.

Lemma keys_insert t p i g t' g' :
  insert t p i g = (inr t', g') -> keys t' = {[ i ]} ∪ keys t.
Proof.
  unfold insert. destruct t as [|kp t].
  - intros [= <- _]. unfold keys. simpl. set_solver.
  - case_bool_decide; [done|].
    destruct (_ && _); [|done]. intros [= <- _].
    unfold keys. change (kp :: t ++ [(i, p)]) with ((kp :: t) ++ [(i, p)]).
    rewrite map_app, list_to_set_app_L. simpl. set_solver.
Qed.

Lemma keys_forget t i t' :
  forget t i = inr t' -> keys t' = keys t ∖ {[ i ]}.
Proof.
  unfold forget. case_bool_decide; [|done]. intros [= <-].
  unfold keys. clear. induction t as [|[k p] t IH]; [set_solver|].
  simpl. destruct (Nat.eqb_spec k i) as [Hd|Hd]; simpl; rewrite IH; set_solver.
Qed.

#[export] Instance trees : RCTreeLib :=
  {| RCTree := chain; RCTree_new := []; leaves := keys;
     insert_point := insert; forget_point := forget; codisp := chain_codisp;
     leaves_new := eq_refl; leaves_insert := keys_insert;
     leaves_forget := keys_forget |}.

End Reference.

(** ** Concrete pipelines

    Detectors with the root-mean-square feature of [vibe_analyzer.py], run
    on the implementation of the libraries above. *)
Module Scenario.
Import Reference.

Definition fs : float := 25000.
Definition seed : @rng random := 42%Z.
Definition chunk : vec := [1; 2].

(** Shingle size 3, five trees, capacity 10. *)
Definition detector : AnomalyDetector := init [calc_rms] 3 5 10.
Definition three_chunks : list (vec * float) :=
  [(chunk, fs); (chunk, fs); (chunk, fs)].
Definition first : AnomalyDetector * rng * result :=
  get_score detector seed chunk fs.

(** Shingle size 1, one tree, capacity 0 and capacity 1. *)
Definition no_room : AnomalyDetector := init [calc_rms] 1 1 0.
Definition one_point : AnomalyDetector := init [calc_rms] 1 1 1.

(** Shingle size 2, one tree, capacity 10. *)
Definition pair : AnomalyDetector := init [calc_rms] 2 1 10.

(** Shingle size 1, two trees, capacity 10: two calls, then a third. *)
Definition warm : AnomalyDetector * rng * list result :=
  run (init [calc_rms] 1 2 10) seed [(chunk, fs); (chunk, fs)].
Definition third : AnomalyDetector * rng * result :=
  get_score (final warm) (final_rng warm) [3; 4] fs.

End Scenario.

(** ** Facts about the pieces *)

Section DetectorFacts.
Context {Random : NumpyRandom} {Trees : RCTreeLib}.

Lemma py_min_inr keys m :
  py_min keys = inr m -> m ∈ keys ∧ ∀ k, k ∈ keys -> (m ≤ k)%nat.
Proof.
  destruct keys as [|k rest]; [done|]. simpl. intros [= <-].
  induction rest as [|x rest IH]; simpl.
  - split; [left|]. intros k' ->%list_elem_of_singleton. lia.
  - destruct IH as [Hin Hle]. split.
    + destruct (Nat.min_spec x (foldr Nat.min k rest)) as [[_ ->]|[_ ->]].
      * right; left.
      * apply elem_of_cons in Hin as [Heq|Hin]; [rewrite Heq; left|].
        by do 2 right.
    + intros k' Hk'. apply elem_of_cons in Hk' as [Heq|Hk'].
      * specialize (Hle k ltac:(left)). lia.
      * apply elem_of_cons in Hk' as [Heq|Hk']; [lia|].
        specialize (Hle k' ltac:(by right)). lia.
Qed.

Lemma py_min_inl keys e : py_min keys = inl e -> keys = [] ∧ e = ValueError.
Proof. destruct keys; [by intros [= <-]|done]. Qed.

Lemma length_push_shingle k buf v :
  (length buf ≤ k)%nat ->
  length (push_shingle k buf v) = Nat.min (S (length buf)) k.
Proof.
  intros Hle. unfold push_shingle.
  case_bool_decide as Hk; rewrite length_app in Hk; cbn [length] in Hk.
  - destruct buf as [|b buf]; cbn [app tail length] in *; [lia|].
    rewrite length_app. cbn [length]. lia.
  - rewrite length_app. cbn [length]. lia.
Qed.

(** *** Feature extraction *)

Lemma length_extract_features ffs data fs f :
  extract_features ffs data fs = inr f -> length f = length ffs.
Proof.
  revert f. induction ffs as [|func rest IH]; intros f; simpl.
  - by intros [= <-].
  - destruct (call_feature data fs func) as [e|val]; [done|].
    destruct (extract_features rest data fs) as [e|features]; [done|].
    intros [= <-]. simpl. by rewrite (IH features).
Qed.

Lemma extracts_inr ffs data fs :
  extracts ffs (data, fs) = true <-> ∃ f, extract_features ffs data fs = inr f.
Proof.
  unfold extracts. simpl.
  destruct (extract_features ffs data fs) as [e|f]; split; try done.
  - by intros [f [=]].
  - eauto.
Qed.

Lemma fed_cons ffs c stream :
  fed ffs (c :: stream) =
  ((if extracts ffs c then 1 else 0) + fed ffs stream)%nat.
Proof. unfold fed. simpl. by destruct (extracts ffs c). Qed.

Lemma fed_app ffs s1 s2 : fed ffs (s1 ++ s2) = (fed ffs s1 + fed ffs s2)%nat.
Proof. unfold fed. by rewrite List.filter_app, length_app. Qed.

Lemma fed_le ffs stream : (fed ffs stream ≤ length stream)%nat.
Proof. unfold fed. apply List.filter_length_le. Qed.

Lemma fed_all ffs stream :
  Forall (fun c => extracts ffs c = true) stream -> fed ffs stream = length stream.
Proof.
  induction 1 as [|c stream Hc _ IH]; [done|].
  rewrite fed_cons, Hc, IH. done.
Qed.

(** *** Eviction and insertion into one tree *)

Lemma evict_below cap t :
  (size (leaves t) < cap)%nat -> evict cap t = inr t.
Proof. intros Hlt. unfold evict. rewrite bool_decide_eq_false_2; [done|lia]. Qed.

Lemma evict_oldest cap t :
  (cap ≤ size (leaves t))%nat -> leaves t ≠ ∅ ->
  ∃ oldest, evict cap t = forget_point t oldest ∧
    oldest ∈ leaves t ∧ (∀ k, k ∈ leaves t -> (oldest ≤ k)%nat).
Proof.
  intros Hge Hne. unfold evict. rewrite bool_decide_eq_true_2; [|done].
  destruct (py_min (elements (leaves t))) as [e|o] eqn:Hmin.
  - apply py_min_inl in Hmin as [Hnil _].
    apply elements_empty_inv in Hnil. by apply leibniz_equiv in Hnil.
  - apply py_min_inr in Hmin as [Hin Hle]. exists o. split; [done|].
    split; [by apply elem_of_elements|].
    intros k Hk. apply Hle. by apply elem_of_elements.
Qed.

Lemma evict_empty cap t :
  (cap ≤ size (leaves t))%nat -> leaves t = ∅ -> evict cap t = inl ValueError.
Proof.
  intros Hge He. unfold evict. rewrite bool_decide_eq_true_2; [|done].
  rewrite He, elements_empty. done.
Qed.

Lemma size_forget t o t' :
  o ∈ leaves t -> forget_point t o = inr t' ->
  size (leaves t') = pred (size (leaves t)).
Proof.
  intros Ho Hf. rewrite (leaves_forget _ _ _ Hf).
  rewrite size_difference; [|set_solver]. rewrite size_singleton. lia.
Qed.

(** An eviction that returns leaves room for the point to insert. *)
Lemma evict_inr cap t t1 :
  (size (leaves t) ≤ cap)%nat -> evict cap t = inr t1 ->
  (size (leaves t1) < cap)%nat.
Proof.
  intros Hsz He.
  destruct (decide (size (leaves t) < cap)%nat) as [Hlt|Hge].
  - rewrite evict_below in He by done. by injection He as <-.
  - destruct (decide (leaves t = ∅)) as [Hemp|Hne].
    + rewrite evict_empty in He by (done || lia). discriminate.
    + destruct (evict_oldest cap t) as (o & Ho & Hin & _); [lia|done|].
      rewrite Ho in He. rewrite (size_forget _ _ _ Hin He).
      assert (size (leaves t) ≠ 0)%nat by (by intros ?%size_empty_inv%leibniz_equiv).
      lia.
Qed.

(** An eviction that raises: [min] of no keys, with capacity zero, or
    [forget_point]. *)
Lemma evict_inl cap t e :
  evict cap t = inl e -> (e = ValueError ∧ cap = 0%nat) ∨ rrcf_raises e.
Proof.
  unfold evict. case_bool_decide as Hge; [|done].
  destruct (py_min (elements (leaves t))) as [e'|o] eqn:Hmin.
  - intros [= ->]. apply py_min_inl in Hmin as [Hnil ->]. left. split; [done|].
    apply elements_empty_inv, leibniz_equiv in Hnil.
    rewrite Hnil, size_empty in Hge. lia.
  - intros Hf. right. left. exists t, o. split; [|done].
    apply py_min_inr in Hmin as [Hin _]. by apply elem_of_elements.
Qed.

Lemma insert_size cap t p i g t' g' :
  (size (leaves t) < cap)%nat -> insert_point t p i g = (inr t', g') ->
  (size (leaves t') ≤ cap)%nat ∧ i ∈ leaves t'.
Proof.
  intros Hsz Hi. rewrite (leaves_insert _ _ _ _ _ _ Hi). split; [|set_solver].
  rewrite size_union_alt, size_singleton.
  assert (size (leaves t ∖ {[i]}) ≤ size (leaves t))%nat
    by (apply subseteq_size; set_solver).
  lia.
Qed.

(** *** The loop over the forest *)

Lemma score_forest_length cap shingle idx ts g :
  length (score_forest cap shingle idx ts g).1.1 = length ts.
Proof.
  revert g. induction ts as [|t rest IH]; intros g; simpl; [done|].
  destruct (evict cap t) as [e|t1]; [done|].
  destruct (insert_point t1 shingle idx g) as [[e|t2] g1]; [done|].
  destruct (codisp t2 idx) as [e|c]; [done|].
  specialize (IH g1).
  destruct (score_forest cap shingle idx rest g1) as [[rest' g2] r].
  simpl in *. by rewrite IH.
Qed.

Lemma score_forest_scores cap shingle idx ts g ts' g' scores :
  score_forest cap shingle idx ts g = (ts', g', inr scores) ->
  Forall2 (fun t c => codisp t idx = inr c) ts' scores ∧
  Forall2 (tree_updated cap shingle idx) ts ts'.
Proof.
  revert g ts' g' scores. induction ts as [|t rest IH]; intros g ts' g' scores.
  - simpl. intros [= <- <- <-]. split; constructor.
  - simpl. destruct (evict cap t) as [e|t1] eqn:He; [done|].
    destruct (insert_point t1 shingle idx g) as [[e|t2] g1] eqn:Hi; [done|].
    destruct (codisp t2 idx) as [e|c] eqn:Hc; [done|].
    destruct (score_forest cap shingle idx rest g1) as [[rest' g2] r] eqn:Hr.
    destruct r as [e|sc]; [done|]. intros [= <- <- <-].
    destruct (IH _ _ _ _ Hr) as [Hcs HF]. split; constructor; try done.
    by exists t1, g, g1.
Qed.

(** However the loop ends, no tree holds more points than the capacity. *)
Lemma score_forest_size cap shingle idx ts g :
  Forall (fun t => (size (leaves t) ≤ cap)%nat) ts ->
  Forall (fun t => (size (leaves t) ≤ cap)%nat)
    (score_forest cap shingle idx ts g).1.1.
Proof.
  revert g. induction ts as [|t rest IH]; intros g Hok; [constructor|].
  apply Forall_cons in Hok as [Ht Hrest]. simpl.
  destruct (evict cap t) as [e|t1] eqn:He; [by constructor|].
  pose proof (evict_inr _ _ _ Ht He) as Hroom.
  destruct (insert_point t1 shingle idx g) as [[e|t2] g1] eqn:Hi.
  { simpl. constructor; [lia|done]. }
  destruct (insert_size _ _ _ _ _ _ _ Hroom Hi) as [Hsz _].
  destruct (codisp t2 idx) as [e|c]; [by constructor|].
  specialize (IH g1 Hrest).
  destruct (score_forest cap shingle idx rest g1) as [[rest' g2] r].
  simpl in *. by constructor.
Qed.

(** A loop that returns has given every tree the index. *)
Lemma score_forest_index cap shingle idx ts ts' :
  Forall2 (tree_updated cap shingle idx) ts ts' ->
  Forall (fun t => idx ∈ leaves t) ts'.
Proof.
  induction 1 as [|t t' ts ts' (t1 & g0 & g1 & _ & Hi) _ IH]; constructor;
    [|done].
  rewrite (leaves_insert _ _ _ _ _ _ Hi). set_solver.
Qed.

(** A loop that raises: [min] of no keys, with capacity zero, or a method
    of a tree. *)
Lemma score_forest_inl cap shingle idx ts g ts' g' e :
  score_forest cap shingle idx ts g = (ts', g', inl e) ->
  (e = ValueError ∧ cap = 0%nat) ∨ rrcf_raises e.
Proof.
  revert g ts' g'. induction ts as [|t rest IH]; intros g ts' g'; [done|].
  simpl. destruct (evict cap t) as [e'|t1] eqn:He.
  { intros [= _ _ ->]. by eapply evict_inl. }
  destruct (insert_point t1 shingle idx g) as [[e'|t2] g1] eqn:Hi.
  { intros [= _ _ ->]. right. right. left. exists t1, shingle, idx, g.
    by rewrite Hi. }
  destruct (codisp t2 idx) as [e'|c] eqn:Hc.
  { intros [= _ _ ->]. right. right. right. exists t2, idx. split; [|done].
    rewrite (leaves_insert _ _ _ _ _ _ Hi). set_solver. }
  destruct (score_forest cap shingle idx rest g1) as [[rest' g2] r] eqn:Hr.
  destruct r as [e'|sc]; [|done]. intros [= _ _ ->]. by eapply IH.
Qed.

(** The trees before the raising one have the point, those after it are
    untouched. *)
Lemma score_forest_raised cap shingle idx ts g ts' g' e :
  score_forest cap shingle idx ts g = (ts', g', inl e) ->
  ∃ k, (k < length ts)%nat ∧
       Forall2 (tree_updated cap shingle idx) (take k ts) (take k ts') ∧
       drop (S k) ts' = drop (S k) ts.
Proof.
  revert g ts' g'. induction ts as [|t rest IH]; intros g ts' g'; [done|].
  simpl. destruct (evict cap t) as [e'|t1] eqn:He.
  { intros [= <- _ _]. exists 0%nat. simpl. split; [lia|]. split; [constructor|done]. }
  destruct (insert_point t1 shingle idx g) as [[e'|t2] g1] eqn:Hi.
  { intros [= <- _ _]. exists 0%nat. simpl. split; [lia|]. split; [constructor|done]. }
  destruct (codisp t2 idx) as [e'|c] eqn:Hc.
  { intros [= <- _ _]. exists 0%nat. simpl. split; [lia|]. split; [constructor|done]. }
  destruct (score_forest cap shingle idx rest g1) as [[rest' g2] r] eqn:Hr.
  destruct r as [e'|sc]; [|done]. intros [= <- _ <-].
  destruct (IH _ _ _ Hr) as (k & Hk & HF & Hd).
  exists (S k). simpl. split; [lia|]. split; [|done].
  constructor; [|done]. by exists t1, g, g1.
Qed.

(** Capacity zero: the first tree raises and nothing has changed. *)
Lemma score_forest_zero shingle idx t rest g :
  (size (leaves t) ≤ 0)%nat ->
  score_forest 0 shingle idx (t :: rest) g = (t :: rest, g, inl ValueError).
Proof.
  intros Hsz. simpl. rewrite evict_empty; [done|lia|].
  apply leibniz_equiv, size_empty_inv. lia.
Qed.

(** *** One call *)

Lemma update_stats_mean a m s f :
  ∃ m1, (update_stats a m s f).1 = Some m1.
Proof. destruct m as [m0|], s as [s0|]; simpl; eauto. Qed.

Lemma update_stats_std a m s f :
  (m = None <-> s = None) -> ∃ s1, (update_stats a m s f).2 = Some s1.
Proof.
  intros Hms. destruct m as [m0|], s as [s0|]; simpl; eauto.
  destruct Hms as [_ Hms]. by specialize (Hms eq_refl).
Qed.

(** The paths through [get_score]: a feature function raises; not ready;
    the loop raises; a score; and the three cases of statistics that do not
    go together. *)
Ltac get_score_cases d g data fs :=
  unfold get_score;
  let e0 := fresh "e0" in let f := fresh "f" in let Hex := fresh "Hex" in
  destruct (extract_features (feature_functions d) data fs) as [e0|f] eqn:Hex;
  [ |
    let m := fresh "m" in let s := fresh "s" in let Hst := fresh "Hst" in
    destruct (update_stats (alpha d) (mean d) (std d) f) as [m s] eqn:Hst;
    destruct m as [m|], s as [s|]; cbn [fst snd];
    [ case_bool_decide;
      [ | let noise := fresh "noise" in let g1 := fresh "g1" in
          let Hn := fresh "Hnoise" in
          destruct (np_random_normal 0 1e-10 _ g) as [noise g1] eqn:Hn;
          let ts := fresh "ts" in let g2 := fresh "g2" in
          let r := fresh "r" in let Hsf := fresh "Hsf" in
          destruct (score_forest _ _ _ (forest d) g1) as [[ts g2] r] eqn:Hsf;
          destruct r as [?e|?scores] ]
    | | | ] ].

Lemma get_score_config d g data fs :
  same_config d (get_score d g data fs).1.1.
Proof.
  get_score_cases d g data fs; unfold same_config; simpl; repeat split.
  - pose proof (score_forest_length (tree_size d)
      (vadd (flatten (push_shingle (shingle_size d) (shingle_buffer d)
         (zscore f m s))) noise)
      (total_points d) (forest d) g1) as Hl.
    by rewrite Hsf in Hl.
  - pose proof (score_forest_length (tree_size d)
      (vadd (flatten (push_shingle (shingle_size d) (shingle_buffer d)
         (zscore f m s))) noise)
      (total_points d) (forest d) g1) as Hl.
    by rewrite Hsf in Hl.
Qed.

Lemma wf_update_stats d f :
  wf d -> ∃ m1 s1, update_stats (alpha d) (mean d) (std d) f = (Some m1, Some s1).
Proof.
  intros [Hms _ _].
  destruct (update_stats_mean (alpha d) (mean d) (std d) f) as [m1 Hm].
  destruct (update_stats_std (alpha d) (mean d) (std d) f Hms) as [s1 Hs].
  exists m1, s1. destruct (update_stats _ _ _ _); simpl in *. congruence.
Qed.

Lemma get_score_wf d g data fs : wf d -> wf (get_score d g data fs).1.1.
Proof.
  intros Hwf. pose proof Hwf as [Hms Hbuf Hfor].
  get_score_cases d g data fs; [done|..];
    destruct (wf_update_stats d f Hwf) as (m1 & s1 & Hu);
    rewrite Hu in Hst; try discriminate; simpl.
  - split; simpl; [done| |done].
    rewrite length_push_shingle; [lia|done].
  - split; simpl; [done|rewrite length_push_shingle; [lia|done]|].
    pose proof (score_forest_size (tree_size d)
      (vadd (flatten (push_shingle (shingle_size d) (shingle_buffer d)
         (zscore f m s))) noise)
      (total_points d) (forest d) g1 Hfor) as Hsz.
    by rewrite Hsf in Hsz.
  - split; simpl; [done|rewrite length_push_shingle; [lia|done]|].
    pose proof (score_forest_size (tree_size d)
      (vadd (flatten (push_shingle (shingle_size d) (shingle_buffer d)
         (zscore f m s))) noise)
      (total_points d) (forest d) g1 Hfor) as Hsz.
    by rewrite Hsf in Hsz.
Qed.

Lemma init_wf ffs k n cap : wf (init ffs k n cap).
Proof.
  split; simpl; [done|lia|]. apply list.Forall_forall.
  intros t Ht%elem_of_replicate. destruct Ht as [-> _].
  rewrite leaves_new, size_empty. lia.
Qed.

(** A feature function raises: the call has changed nothing. *)
Lemma get_score_unfed d g data fs e :
  extract_features (feature_functions d) data fs = inl e ->
  get_score d g data fs = (d, g, Raised e).
Proof. intros Hex. unfold get_score. by rewrite Hex. Qed.

(** The length of the buffer decides between the two [return]s. *)
Lemma get_score_buffer d g data fs f :
  wf d ->
  extract_features (feature_functions d) data fs = inr f ->
  length (shingle_buffer (get_score d g data fs).1.1) =
  Nat.min (S (length (shingle_buffer d))) (shingle_size d).
Proof.
  intros Hwf Hf. pose proof Hwf as [Hms Hbuf Hfor].
  destruct (wf_update_stats d f Hwf) as (m1 & s1 & Hu).
  unfold get_score. rewrite Hf, Hu. case_bool_decide.
  - simpl. by rewrite length_push_shingle.
  - destruct (np_random_normal _ _ _ _) as [noise g1].
    destruct (score_forest _ _ _ _ _) as [[ts g2] [e|sc]]; simpl;
      by rewrite length_push_shingle.
Qed.

Lemma get_score_not_ready d g data fs f :
  wf d ->
  extract_features (feature_functions d) data fs = inr f ->
  (S (length (shingle_buffer d)) < shingle_size d)%nat ->
  (get_score d g data fs).2 = NotReady.
Proof.
  intros Hwf Hf Hlt. pose proof Hwf as [Hms Hbuf Hfor].
  destruct (wf_update_stats d f Hwf) as (m1 & s1 & Hu).
  unfold get_score. rewrite Hf, Hu.
  rewrite bool_decide_eq_true_2; [done|].
  rewrite length_push_shingle by done. lia.
Qed.

(** With the buffer full the call returns a score, unless the loop
    raises. *)
Lemma get_score_ready d g data fs f :
  wf d ->
  extract_features (feature_functions d) data fs = inr f ->
  (shingle_size d ≤ S (length (shingle_buffer d)))%nat ->
  (∃ v, (get_score d g data fs).2 = Score v) ∨
  (∃ e, (get_score d g data fs).2 = Raised e ∧
        ((e = ValueError ∧ tree_size d = 0%nat) ∨ rrcf_raises e)).
Proof.
  intros Hwf Hf Hge. pose proof Hwf as [Hms Hbuf Hfor].
  destruct (wf_update_stats d f Hwf) as (m1 & s1 & Hu).
  unfold get_score. rewrite Hf, Hu.
  rewrite bool_decide_eq_false_2
    by (rewrite length_push_shingle by done; lia).
  destruct (np_random_normal _ _ _ _) as [noise g1].
  destruct (score_forest _ _ _ _ _) as [[ts g2] [e|sc]] eqn:Hsf; simpl.
  - right. exists e. split; [done|]. by eapply score_forest_inl.
  - left. eauto.
Qed.

Lemma get_score_raises d g data fs f :
  wf d ->
  extract_features (feature_functions d) data fs = inr f ->
  (shingle_size d ≤ S (length (shingle_buffer d)))%nat ->
  tree_size d = 0%nat -> forest d ≠ [] ->
  (get_score d g data fs).2 = Raised ValueError ∧
  forest (get_score d g data fs).1.1 = forest d.
Proof.
  intros Hwf Hf Hge Hcap Hne. pose proof Hwf as [Hms Hbuf Hfor].
  destruct (wf_update_stats d f Hwf) as (m1 & s1 & Hu).
  destruct (forest d) as [|t rest] eqn:Hfd; [done|].
  apply Forall_cons in Hfor as [Ht Hrest]. rewrite Hcap in Ht.
  unfold get_score. rewrite Hf, Hu.
  rewrite bool_decide_eq_false_2; [|rewrite length_push_shingle; [lia|done]].
  destruct (np_random_normal _ _ _ _) as [noise g1].
  rewrite Hfd, Hcap, score_forest_zero; done.
Qed.

(** *** The outcomes of a call, read backwards *)

Lemma get_score_NotReady d g data fs d' g' :
  get_score d g data fs = (d', g', NotReady) ->
  ∃ f m1 s1,
    extract_features (feature_functions d) data fs = inr f ∧
    update_stats (alpha d) (mean d) (std d) f = (Some m1, Some s1) ∧
    mean d' = Some m1 ∧ std d' = Some s1 ∧
    shingle_buffer d' = shingle_buffer d ++ [zscore f m1 s1] ∧
    (length (shingle_buffer d') < shingle_size d)%nat ∧
    total_points d' = total_points d ∧
    forest d' = forest d ∧
    g' = g.
Proof.
  get_score_cases d g data fs; try discriminate.
  intros [= <- <-]. exists f, m, s. simpl. repeat split; try done.
  unfold push_shingle in *. case_bool_decide as Hpop; [|done].
  destruct (shingle_buffer d) as [|b buf]; simpl in *; [lia|].
  rewrite length_app in *. simpl in *. lia.
Qed.

Lemma get_score_Score d g data fs d' g' v :
  get_score d g data fs = (d', g', Score v) ->
  ∃ f m1 s1 noise g1 scores,
    let buf := push_shingle (shingle_size d) (shingle_buffer d)
                 (zscore f m1 s1) in
    extract_features (feature_functions d) data fs = inr f ∧
    update_stats (alpha d) (mean d) (std d) f = (Some m1, Some s1) ∧
    mean d' = Some m1 ∧ std d' = Some s1 ∧
    shingle_buffer d' = buf ∧
    ¬ (length buf < shingle_size d)%nat ∧
    np_random_normal 0 1e-10 (length (flatten buf)) g = (noise, g1) ∧
    score_forest (tree_size d) (vadd (flatten buf) noise) (total_points d)
      (forest d) g1 = (forest d', g', inr scores) ∧
    v = np_mean scores ∧
    total_points d' = S (total_points d).
Proof.
  get_score_cases d g data fs; try discriminate.
  intros [= <- <- <-]. exists f, m, s, noise, g1, scores. simpl.
  repeat split; done.
Qed.

Lemma get_score_Raised d g data fs d' g' e :
  get_score d g data fs = (d', g', Raised e) ->
  total_points d' = total_points d.
Proof.
  get_score_cases d g data fs; try discriminate; by intros [= <- <- <-].
Qed.

(** A call that raised, for a detector between two calls: a feature
    function raised and nothing has changed, or the loop raised. *)
Lemma get_score_Raised_wf d g data fs d' g' e :
  wf d ->
  get_score d g data fs = (d', g', Raised e) ->
  (extract_features (feature_functions d) data fs = inl e ∧ d' = d ∧ g' = g) ∨
  (∃ f m1 s1 noise g1,
     let buf := push_shingle (shingle_size d) (shingle_buffer d)
                  (zscore f m1 s1) in
     extract_features (feature_functions d) data fs = inr f ∧
     update_stats (alpha d) (mean d) (std d) f = (Some m1, Some s1) ∧
     mean d' = Some m1 ∧ std d' = Some s1 ∧
     shingle_buffer d' = buf ∧
     ¬ (length buf < shingle_size d)%nat ∧
     np_random_normal 0 1e-10 (length (flatten buf)) g = (noise, g1) ∧
     score_forest (tree_size d) (vadd (flatten buf) noise) (total_points d)
       (forest d) g1 = (forest d', g', inl e)).
Proof.
  intros Hwf.
  get_score_cases d g data fs; try discriminate.
  - intros [= <- <- <-]. by left.
  - intros [= <- <- <-]. right. exists f, m, s, noise, g1. simpl.
    repeat split; done.
  - destruct (wf_update_stats d f Hwf) as (m1 & s1 & Hu). congruence.
  - destruct (wf_update_stats d f Hwf) as (m1 & s1 & Hu). congruence.
  - destruct (wf_update_stats d f Hwf) as (m1 & s1 & Hu). congruence.
Qed.

(** *** Streams of calls *)

Lemma run_wf stream : ∀ d g, wf d -> wf (final (run d g stream)).
Proof.
  induction stream as [|[data fs] rest IH]; intros d g Hwf; [done|].
  simpl. pose proof (get_score_wf d g data fs Hwf) as Hwf1.
  destruct (get_score d g data fs) as [[d1 g1] r]. simpl in Hwf1.
  specialize (IH d1 g1 Hwf1).
  by destruct (run d1 g1 rest) as [[d2 g2] rs].
Qed.

Lemma run_config stream : ∀ d g, same_config d (final (run d g stream)).
Proof.
  induction stream as [|[data fs] rest IH]; intros d g; [done|].
  simpl. pose proof (get_score_config d g data fs) as Hc1.
  destruct (get_score d g data fs) as [[d1 g1] r]. simpl in Hc1.
  specialize (IH d1 g1).
  destruct (run d1 g1 rest) as [[d2 g2] rs]. unfold final in *. simpl in *.
  destruct Hc1 as (? & ? & ? & ? & ?), IH as (? & ? & ? & ? & ?).
  repeat split; congruence.
Qed.

Lemma length_results stream : ∀ d g,
  length (results (run d g stream)) = length stream.
Proof.
  induction stream as [|[data fs] rest IH]; intros d g; [done|].
  simpl. destruct (get_score d g data fs) as [[d1 g1] r].
  specialize (IH d1 g1). destruct (run d1 g1 rest) as [[d2 g2] rs].
  unfold results in *. simpl in *. by rewrite IH.
Qed.

(** What a call does to the number of vectors in the buffer: one more for
    a chunk that gets through the feature functions, up to [K]. *)
Lemma get_score_fed d g data fs c :
  wf d ->
  length (shingle_buffer d) = Nat.min c (shingle_size d) ->
  length (shingle_buffer (get_score d g data fs).1.1) =
  Nat.min (c + (if extracts (feature_functions d) (data, fs) then 1 else 0))
          (shingle_size d).
Proof.
  intros Hwf Hlen. unfold extracts. cbn [fst snd].
  destruct (extract_features (feature_functions d) data fs) as [e|f] eqn:Hex.
  - rewrite (get_score_unfed _ _ _ _ _ Hex). cbn [fst]. rewrite Hlen. f_equal. lia.
  - rewrite (get_score_buffer _ _ _ _ _ Hwf Hex), Hlen. lia.
Qed.

Lemma run_fed stream : ∀ d g c,
  wf d ->
  length (shingle_buffer d) = Nat.min c (shingle_size d) ->
  length (shingle_buffer (final (run d g stream))) =
  Nat.min (c + fed (feature_functions d) stream) (shingle_size d).
Proof.
  induction stream as [|[data fs] rest IH]; intros d g c Hwf Hlen.
  - unfold fed, final. simpl. rewrite Hlen. f_equal. lia.
  - simpl.
    pose proof (get_score_wf d g data fs Hwf) as Hwf1.
    pose proof (get_score_fed d g data fs c Hwf Hlen) as Hb1.
    pose proof (get_score_config d g data fs) as (Hff & HK & _).
    destruct (get_score d g data fs) as [[d1 g1] r1]. cbn [fst snd] in *.
    specialize (IH d1 g1
      (c + (if extracts (feature_functions d) (data, fs) then 1 else 0))%nat
      Hwf1).
    rewrite HK in IH. specialize (IH Hb1).
    destruct (run d1 g1 rest) as [[d2 g2] rs]. unfold final in *.
    cbn [fst snd] in *. rewrite IH, Hff, fed_cons. f_equal. lia.
Qed.

(** With [c] chunks fed before the stream, the call at position [i] is
    answered by the number of chunks fed up to it. *)
Lemma run_results stream : ∀ d g c i r data fs,
  wf d ->
  length (shingle_buffer d) = Nat.min c (shingle_size d) ->
  results (run d g stream) !! i = Some r ->
  stream !! i = Some (data, fs) ->
  (∀ e, extract_features (feature_functions d) data fs = inl e ->
     r = Raised e) ∧
  (∀ f, extract_features (feature_functions d) data fs = inr f ->
     ((c + fed (feature_functions d) (take (S i) stream) < shingle_size d)%nat ->
        r = NotReady) ∧
     ((shingle_size d ≤ c + fed (feature_functions d) (take (S i) stream))%nat ->
        (∃ v, r = Score v) ∨
        (∃ e, r = Raised e ∧
              ((e = ValueError ∧ tree_size d = 0%nat) ∨ rrcf_raises e))) ∧
     ((shingle_size d ≤ c + fed (feature_functions d) (take (S i) stream))%nat ->
        tree_size d = 0%nat -> forest d ≠ [] -> r = Raised ValueError)).
Proof.
  induction stream as [|[data0 fs0] rest IH]; intros d g c i r data fs Hwf Hlen Hi Hc;
    [done|].
  simpl in Hi.
  pose proof (get_score_wf d g data0 fs0 Hwf) as Hwf1.
  pose proof (get_score_fed d g data0 fs0 c Hwf Hlen) as Hb1.
  pose proof (get_score_config d g data0 fs0) as (Hff & HK & Hcap & _ & Hnf).
  destruct i as [|i].
  - simpl in Hc. injection Hc as -> ->. clear IH.
    cbn [take]. rewrite take_0, fed_cons. unfold fed at 1 2 3.
    cbn [List.filter length].
    split.
    + intros e He. rewrite (get_score_unfed _ _ _ _ _ He) in Hi.
      simpl in Hi. destruct (run d g rest) as [[d2 g2] rs]. simpl in Hi.
      by injection Hi as <-.
    + intros f Hf.
      assert (extracts (feature_functions d) (data, fs) = true) as ->
        by (apply extracts_inr; eauto).
      pose proof (get_score_not_ready d g data fs f Hwf Hf) as Hnr.
      pose proof (get_score_ready d g data fs f Hwf Hf) as Hrd.
      pose proof (get_score_raises d g data fs f Hwf Hf) as Hrs.
      destruct (get_score d g data fs) as [[d1 g1] r1]. cbn [fst snd] in *.
      destruct (run d1 g1 rest) as [[d2 g2] rs]. unfold results in Hi.
      simpl in Hi. injection Hi as <-.
      repeat split.
      * intros Hlt. apply Hnr. lia.
      * intros Hge. apply Hrd. lia.
      * intros Hge Hz Hne. apply Hrs; [lia|done|done].
  - simpl in Hc.
    destruct (get_score d g data0 fs0) as [[d1 g1] r1]. cbn [fst snd] in *.
    specialize (IH d1 g1
      (c + (if extracts (feature_functions d) (data0, fs0) then 1 else 0))%nat
      i r data fs Hwf1).
    rewrite HK in IH. specialize (IH Hb1).
    destruct (run d1 g1 rest) as [[d2 g2] rs]. unfold results in *.
    cbn [fst snd] in *. simpl in Hi. specialize (IH Hi Hc).
    rewrite Hff, Hcap in IH.
    replace (take (S (S i)) ((data0, fs0) :: rest))
      with ((data0, fs0) :: take (S i) rest) by done.
    rewrite fed_cons.
    assert (forest d ≠ [] -> forest d1 ≠ []) as Hne1.
    { intros Hne He. rewrite He in Hnf. destruct (forest d); simpl in *; congruence. }
    destruct IH as [IH1 IH2]. split; [exact IH1|].
    intros f Hf. destruct (IH2 f Hf) as (H1 & H2 & H3).
    rewrite !Nat.add_assoc. repeat split; auto.
Qed.

(** ** Frame of a not-ready call *)

(** C10.  A call that returns the not-ready result has gone through the
    feature functions, has assigned the new running mean and deviation and
    has appended the normalized vector to the buffer (nothing was popped,
    the buffer is still shorter than the shingle size); the counter, every
    tree of the forest and the random generator are as before the call. *)
Theorem not_ready_frame d g data fs :
  (get_score d g data fs).2 = NotReady ->
  let d' := (get_score d g data fs).1.1 in
  let g' := (get_score d g data fs).1.2 in
  ∃ f m1 s1,
    extract_features (feature_functions d) data fs = inr f ∧
    update_stats (alpha d) (mean d) (std d) f = (Some m1, Some s1) ∧
    mean d' = Some m1 ∧ std d' = Some s1 ∧
    shingle_buffer d' = shingle_buffer d ++ [zscore f m1 s1] ∧
    (length (shingle_buffer d') < shingle_size d)%nat ∧
    total_points d' = total_points d ∧
    forest d' = forest d ∧
    g' = g.
Proof.
  destruct (get_score d g data fs) as [[d' g'] r] eqn:Hcall.
  cbn [fst snd]. intros ->. by apply get_score_NotReady.
Qed.

(** ** The ensemble score *)

(** C3.  The score a call returns is the arithmetic mean (sum over count)
    of the CoDisp values that the trees of the forest, each just after its
    insertion, give for the index of the inserted point: the value of the
    counter before the call.  Every tree was given that point. *)
Theorem score_is_mean_codisp d g data fs v :
  (get_score d g data fs).2 = Score v ->
  let d' := (get_score d g data fs).1.1 in
  ∃ codisps,
    Forall2 (fun t c => codisp t (total_points d) = inr c) (forest d') codisps ∧
    v = np_sum codisps / float_of_nat (length (forest d')) ∧
    length (forest d') = length (forest d) ∧
    ∃ shingle,
      Forall2 (tree_updated (tree_size d) shingle (total_points d))
        (forest d) (forest d').
Proof.
  destruct (get_score d g data fs) as [[d' g'] r] eqn:Hcall.
  cbn [fst snd]. intros ->.
  destruct (get_score_Score _ _ _ _ _ _ _ Hcall)
    as (f & m1 & s1 & noise & g1 & scores & _ & _ & _ & _ & _ & _ & _ & Hsf & -> & _).
  destruct (score_forest_scores _ _ _ _ _ _ _ _ Hsf) as [Hcs HF].
  exists scores. split; [done|]. unfold np_mean.
  rewrite <- (Forall2_length _ _ _ Hcs). repeat split.
  - by apply Forall2_length in HF.
  - eauto.
Qed.

(** ** Readiness *)

(** C1, as the code has it.  In a pipeline built by [__init__] with
    shingle size [K] a call on which a feature function raises raises that
    exception.  A call that gets through the feature functions returns the
    not-ready result while fewer than [K] chunks, this one included, have
    got through; from the [K]-th such chunk on it returns a computed score,
    unless the loop over the trees raises: [min] of no keys, which needs a
    capacity of zero, or a method of a tree.  When every chunk gets through
    the feature functions the chunks that got through are the calls. *)
Theorem readiness_gating ffs K n cap g stream i r data fs :
  results (run (init ffs K n cap) g stream) !! i = Some r ->
  stream !! i = Some (data, fs) ->
  (∀ e, extract_features ffs data fs = inl e -> r = Raised e) ∧
  (∀ f, extract_features ffs data fs = inr f ->
     ((fed ffs (take (S i) stream) < K)%nat -> r = NotReady) ∧
     ((K ≤ fed ffs (take (S i) stream))%nat ->
        (∃ v, r = Score v) ∨
        (∃ e, r = Raised e ∧
              ((e = ValueError ∧ cap = 0%nat) ∨ rrcf_raises e)))) ∧
  (Forall (fun c => extracts ffs c = true) (take (S i) stream) ->
     fed ffs (take (S i) stream) = S i).
Proof.
  intros Hi Hc.
  destruct (run_results stream (init ffs K n cap) g 0%nat i r data fs)
    as (H1 & H2); [apply init_wf|done|done|done|].
  simpl in *. split; [done|]. split.
  - intros f Hf. destruct (H2 f Hf) as (Ha & Hb & _). by split.
  - intros Hall. rewrite fed_all by done. rewrite length_take.
    apply lookup_lt_Some in Hc. lia.
Qed.

(** ** Capacity *)

(** C2.  After any stream of calls on a pipeline built by [__init__], no
    tree of the forest holds more points than the capacity, whether the
    calls returned or raised.  The reason is the order in the loop body: a
    tree that is at (or above) the capacity first forgets its smallest
    index, and the point is inserted into what is left. *)
Theorem capacity_invariant ffs K n cap g stream :
  let d := final (run (init ffs K n cap) g stream) in
  Forall (fun t => (size (leaves t) ≤ cap)%nat) (forest d) ∧
  ∀ t shingle idx g',
    (cap ≤ size (leaves t))%nat -> leaves t ≠ ∅ ->
    ∃ oldest,
      oldest ∈ leaves t ∧ (∀ k, k ∈ leaves t -> (oldest ≤ k)%nat) ∧
      (score_forest cap shingle idx [t] g').1.1 =
        [match forget_point t oldest with
         | inl _ => t
         | inr t1 =>
             match (insert_point t1 shingle idx g').1 with
             | inl _ => t1
             | inr t2 => t2
             end
         end].
Proof.
  cbv zeta. split.
  - pose proof (run_wf stream (init ffs K n cap) g (init_wf _ _ _ _)) as [_ _ Hf].
    pose proof (run_config stream (init ffs K n cap) g) as (_ & _ & Hcap & _).
    by rewrite Hcap in Hf.
  - intros t shingle idx g' Hge Hne.
    destruct (evict_oldest cap t Hge Hne) as (o & He & Ho & Hmin).
    exists o. repeat split; [done|done|]. simpl. rewrite He.
    destruct (forget_point t o) as [e|t1]; [done|].
    destruct (insert_point t1 shingle idx g') as [[e|t2] g1]; [done|].
    by destruct (codisp t2 idx).
Qed.

(** *** The buffer over a stream *)

Lemma push_shingle_last_n {k} (buf : list vec) v :
  (length buf ≤ k)%nat -> push_shingle k buf v = last_n k (buf ++ [v]).
Proof.
  intros Hle. unfold push_shingle, last_n. rewrite length_app. cbn [length].
  case_bool_decide as Hk.
  - replace (length buf + 1 - k)%nat with 1%nat by lia.
    by destruct (buf ++ [v]).
  - by replace (length buf + 1 - k)%nat with 0%nat by lia.
Qed.

Lemma last_n_app_last_n {A} k (a b : list A) :
  last_n k (last_n k a ++ b) = last_n k (a ++ b).
Proof.
  unfold last_n. rewrite !length_app, length_drop.
  destruct (decide (length a ≤ k)%nat) as [Hle|Hgt].
  - replace (length a - k)%nat with 0%nat by lia. simpl.
    by rewrite Nat.sub_0_r.
  - replace (length a - (length a - k) + length b - k)%nat
      with (length b) by lia.
    replace (length a + length b - k)%nat
      with ((length a - k) + length b)%nat by lia.
    rewrite <- drop_drop. f_equal. rewrite drop_app_le; [done|lia].
Qed.

Lemma last_n_all {A} k (l : list A) : (length l ≤ k)%nat -> last_n k l = l.
Proof.
  intros Hle. unfold last_n.
  by replace (length l - k)%nat with 0%nat by lia.
Qed.

(** A call normalizes exactly the chunks that get through the feature
    functions. *)
Lemma normalized_features_Some d data fs :
  wf d ->
  (∀ f, extract_features (feature_functions d) data fs = inr f ->
     ∃ m1 s1, update_stats (alpha d) (mean d) (std d) f = (Some m1, Some s1) ∧
              normalized_features d data fs = Some (zscore f m1 s1)) ∧
  (∀ e, extract_features (feature_functions d) data fs = inl e ->
     normalized_features d data fs = None).
Proof.
  intros Hwf. unfold normalized_features. split.
  - intros f ->. destruct (wf_update_stats d f Hwf) as (m1 & s1 & Hu).
    exists m1, s1. by rewrite Hu.
  - by intros e ->.
Qed.

Lemma normalized_features_extracts d data fs :
  wf d ->
  is_Some (normalized_features d data fs) <->
  extracts (feature_functions d) (data, fs) = true.
Proof.
  intros Hwf. destruct (normalized_features_Some d data fs Hwf) as [H1 H2].
  unfold extracts. cbn [fst snd].
  destruct (extract_features (feature_functions d) data fs) as [e|f].
  - rewrite (H2 e eq_refl). split; [by intros [? [=]]|done].
  - destruct (H1 f eq_refl) as (m1 & s1 & _ & ->). split; [done|eauto].
Qed.

Lemma get_score_pushed d g data fs :
  wf d ->
  shingle_buffer (get_score d g data fs).1.1 =
  match normalized_features d data fs with
  | Some v => push_shingle (shingle_size d) (shingle_buffer d) v
  | None => shingle_buffer d
  end.
Proof.
  intros Hwf. unfold normalized_features.
  get_score_cases d g data fs; [done|..];
    destruct (wf_update_stats d f Hwf) as (m1 & s1 & Hu);
    rewrite Hu in Hst; try discriminate; injection Hst as <- <-; done.
Qed.

Lemma run_buffer stream : ∀ d g,
  wf d ->
  shingle_buffer (final (run d g stream)) =
  last_n (shingle_size d) (shingle_buffer d ++ normalized_stream d g stream).
Proof.
  induction stream as [|[data fs] rest IH]; intros d g Hwf.
  - unfold final. simpl. rewrite app_nil_r, last_n_all; [done|apply Hwf].
  - simpl.
    pose proof (get_score_wf d g data fs Hwf) as Hwf1.
    pose proof (get_score_pushed d g data fs Hwf) as Hp.
    pose proof (get_score_config d g data fs) as (_ & HK & _).
    destruct (get_score d g data fs) as [[d1 g1] r1]. cbn [fst snd] in *.
    specialize (IH d1 g1 Hwf1).
    destruct (run d1 g1 rest) as [[d2 g2] rs]. unfold final in *.
    cbn [fst snd] in *. rewrite IH, HK, Hp.
    destruct (normalized_features d data fs) as [v|]; cbn [option_list app].
    + rewrite push_shingle_last_n by apply Hwf.
      rewrite last_n_app_last_n. by rewrite <- app_assoc.
    + done.
Qed.

Lemma normalized_stream_app s1 : ∀ d g s2,
  normalized_stream d g (s1 ++ s2) =
  normalized_stream d g s1 ++
  normalized_stream (final (run d g s1)) (final_rng (run d g s1)) s2.
Proof.
  induction s1 as [|[data fs] rest IH]; intros d g s2; [done|].
  simpl. destruct (get_score d g data fs) as [[d1 g1] r1].
  rewrite IH, app_assoc. by destruct (run d1 g1 rest) as [[d2 g2] rs].
Qed.

Lemma get_score_loop d g data fs :
  wf d ->
  extracts (feature_functions d) (data, fs) = true ->
  let buf := shingle_buffer (get_score d g data fs).1.1 in
  length buf = shingle_size d ->
  let flat := flatten buf in
  let drawn := np_random_normal 0 1e-10 (length flat) g in
  let looped := score_forest (tree_size d) (vadd flat drawn.1)
                  (total_points d) (forest d) drawn.2 in
  forest (get_score d g data fs).1.1 = looped.1.1 ∧
  (get_score d g data fs).1.2 = looped.1.2.
Proof.
  intros Hwf Hex. apply extracts_inr in Hex as [f0 Hex0].
  get_score_cases d g data fs; [congruence|..];
    destruct (wf_update_stats d f Hwf) as (m1 & s1 & Hu);
    rewrite Hu in Hst; try discriminate; cbn [fst snd shingle_buffer].
  - intros Hlen. lia.
  - intros _. rewrite Hnoise. cbn [fst snd]. by rewrite Hsf.
  - intros _. rewrite Hnoise. cbn [fst snd]. by rewrite Hsf.
Qed.

(** ** The shingle buffer *)

(** C6.  In every call on a pipeline built by [__init__] that gets through
    the feature functions the normalized vector is appended to the buffer
    and, when the buffer is then longer than [K], its first entry is
    removed; a call on which a feature function raises leaves the buffer
    as it was.  The buffer never holds more than [K] vectors and holds the
    last [K] normalized vectors in the order of the calls.  When it holds
    [K] vectors, the point given to the loop over the trees is their
    concatenation plus one draw per coordinate of
    [np.random.normal(0, 1e-10, shape)]. *)
Theorem shingle_buffer_fifo ffs K n cap g0 stream data fs :
  let before := run (init ffs K n cap) g0 stream in
  let d := final before in
  let g := final_rng before in
  let d' := (get_score d g data fs).1.1 in
  (∀ v, normalized_features d data fs = Some v ->
     let appended := shingle_buffer d ++ [v] in
     shingle_buffer d' =
       (if bool_decide (K < length appended)%nat then tail appended
        else appended)) ∧
  (normalized_features d data fs = None ->
     shingle_buffer d' = shingle_buffer d) ∧
  (is_Some (normalized_features d data fs) <-> extracts ffs (data, fs) = true) ∧
  (length (shingle_buffer d') ≤ K)%nat ∧
  shingle_buffer d' =
    last_n K (normalized_stream (init ffs K n cap) g0 (stream ++ [(data, fs)])) ∧
  (extracts ffs (data, fs) = true -> length (shingle_buffer d') = K ->
   let flat := concat (shingle_buffer d') in
   let drawn := np_random_normal 0 1e-10 (length flat) g in
   let looped := score_forest cap (vadd flat drawn.1) (total_points d)
                   (forest d) drawn.2 in
   length drawn.1 = length flat ∧
   length (vadd flat drawn.1) = length flat ∧
   forest d' = looped.1.1).
Proof.
  cbv zeta.
  pose proof (run_wf stream (init ffs K n cap) g0 (init_wf _ _ _ _)) as Hwf.
  pose proof (run_config stream (init ffs K n cap) g0) as (Hff & HK & Hcap & _).
  simpl in Hff, HK, Hcap.
  set (d := final (run (init ffs K n cap) g0 stream)) in *.
  set (g := final_rng (run (init ffs K n cap) g0 stream)) in *.
  pose proof (get_score_pushed d g data fs Hwf) as Hp. rewrite HK in Hp.
  pose proof (get_score_wf d g data fs Hwf) as Hwf1.
  pose proof (get_score_config d g data fs) as (_ & HK1 & _).
  split; [|split; [|split; [|split; [|split]]]].
  - intros v Hv. by rewrite Hp, Hv.
  - intros Hv. by rewrite Hp, Hv.
  - rewrite <- Hff. by apply normalized_features_extracts.
  - destruct Hwf1 as [_ Hb _]. rewrite HK1, HK in Hb. exact Hb.
  - rewrite normalized_stream_app. fold d g.
    pose proof (run_buffer stream (init ffs K n cap) g0 (init_wf _ _ _ _)) as Hrb.
    simpl in Hrb. fold d in Hrb.
    cbn [normalized_stream].
    destruct (get_score d g data fs) as [[d1 g1] r1]. cbn [fst snd] in *.
    rewrite app_nil_r, Hp.
    destruct (normalized_features d data fs) as [v|]; cbn [option_list].
    + rewrite push_shingle_last_n by (rewrite <- HK; apply Hwf).
      by rewrite Hrb, last_n_app_last_n.
    + by rewrite app_nil_r.
  - intros Hex Hlen. rewrite <- HK in Hlen. rewrite <- Hff in Hex.
    destruct (get_score_loop d g data fs Hwf Hex Hlen) as [Hf _].
    rewrite Hcap in Hf. unfold flatten in Hf. split; [|split; [|exact Hf]].
    + apply np_random_normal_shape.
    + unfold vadd. rewrite length_zip_with, np_random_normal_shape. lia.
Qed.

(** ** The counter of points *)

(** C5, as the code has it.  In any call on a pipeline built by
    [__init__] the counter does not decrease.  A not-ready call leaves it
    (and the forest) as it was.  A call that returns a score has added one
    to it and has given every tree of the forest one and the same point
    under one and the same index, the value of the counter before the
    call.  A call that raises leaves the counter as it was, also when the
    shingle had been built: either a feature function raised and the
    forest is untouched, or the loop raised at some tree, and then the
    trees before it have been given the point and the trees after it are
    untouched. *)
Theorem point_id_counter ffs K n cap g0 stream data fs :
  let before := run (init ffs K n cap) g0 stream in
  let d := final before in
  let call := get_score d (final_rng before) data fs in
  let d' := call.1.1 in
  (total_points d ≤ total_points d')%nat ∧
  (call.2 = NotReady ->
     total_points d' = total_points d ∧ forest d' = forest d) ∧
  (∀ v, call.2 = Score v ->
     total_points d' = S (total_points d) ∧
     ∃ shingle,
       Forall2 (tree_updated cap shingle (total_points d)) (forest d) (forest d') ∧
       Forall (fun t => total_points d ∈ leaves t) (forest d')) ∧
  (∀ e, call.2 = Raised e ->
     total_points d' = total_points d ∧
     ((extract_features ffs data fs = inl e ∧ forest d' = forest d) ∨
      ∃ shingle k,
        (k < length (forest d))%nat ∧
        Forall2 (tree_updated cap shingle (total_points d))
          (take k (forest d)) (take k (forest d')) ∧
        drop (S k) (forest d') = drop (S k) (forest d))).
Proof.
  cbv zeta.
  pose proof (run_wf stream (init ffs K n cap) g0 (init_wf _ _ _ _)) as Hwf.
  pose proof (run_config stream (init ffs K n cap) g0) as (Hff & HK & Hc & _).
  simpl in Hff, HK, Hc.
  set (d := final (run (init ffs K n cap) g0 stream)) in *.
  set (g := final_rng (run (init ffs K n cap) g0 stream)) in *.
  destruct (get_score d g data fs) as [[d1 g1] r] eqn:Hcall.
  cbn [fst snd]. destruct r as [|v|e].
  - destruct (get_score_NotReady _ _ _ _ _ _ Hcall)
      as (? & ? & ? & _ & _ & _ & _ & _ & _ & Htp & Hf & _).
    split; [lia|]. split; [done|]. split; [by intros ? [=]|by intros ? [=]].
  - destruct (get_score_Score _ _ _ _ _ _ _ Hcall)
      as (f & m1 & s1 & noise & g1' & scores & _ & _ & _ & _ & _ & _ & _ & Hsf & _ & Htp).
    split; [lia|]. split; [done|]. split; [|by intros ? [=]].
    intros ? [= <-]. split; [done|]. rewrite Hc in Hsf.
    destruct (score_forest_scores _ _ _ _ _ _ _ _ Hsf) as [_ HF].
    eexists. split; [exact HF|]. by eapply score_forest_index.
  - pose proof (get_score_Raised _ _ _ _ _ _ _ Hcall) as Htp.
    split; [lia|]. split; [done|]. split; [by intros ? [=]|].
    intros ? [= <-]. split; [done|].
    destruct (get_score_Raised_wf _ _ _ _ _ _ _ Hwf Hcall)
      as [(Hex & -> & _)|(f & m1 & s1 & noise & g1' & _ & _ & _ & _ & _ & _ & _ & Hsf)].
    + left. by rewrite <- Hff.
    + right. rewrite Hc in Hsf. eexists. by eapply score_forest_raised.
Qed.

(** ** The running mean and deviation *)

(** Subtracting a binary64 number from itself: zero for a finite number,
    [nan] for an infinity or [nan]. *)
Lemma is_finite_spec x :
  PrimFloat.is_finite x =
  match Prim2SF x with
  | S754_zero _ | S754_finite _ _ _ => true
  | _ => false
  end.
Proof.
  unfold PrimFloat.is_finite, PrimFloat.is_nan, PrimFloat.is_infinity.
  rewrite !FloatAxioms.eqb_spec, FloatAxioms.abs_spec.
  replace (Prim2SF infinity) with (S754_infinity false) by reflexivity.
  destruct (Prim2SF x) as [sg|sg| |sg m e];
    try (destruct sg; reflexivity); try reflexivity.
  unfold SFeqb, SFabs, SFcompare.
  rewrite Z.compare_refl, Pos.compare_cont_refl.
  destruct sg; reflexivity.
Qed.

Lemma sub_diag x : x - x = if PrimFloat.is_finite x then 0 else nan.
Proof.
  rewrite is_finite_spec.
  rewrite <- (SF2Prim_Prim2SF (x - x)), FloatAxioms.sub_spec.
  destruct (Prim2SF x) as [sg|sg| |sg m e].
  - destruct sg; reflexivity.
  - destruct sg; reflexivity.
  - reflexivity.
  - unfold SF64sub, SFsub. rewrite Z.sub_diag. reflexivity.
Qed.

Lemma zscore_first f :
  zscore f f (np_ones_like f) =
  map (fun x => if PrimFloat.is_finite x then 0 else nan) f.
Proof.
  unfold zscore, vdiv, vsub, vadd_scalar, np_ones_like.
  induction f as [|x f IH]; [done|]. simpl. rewrite IH. f_equal.
  rewrite sub_diag. by destruct (PrimFloat.is_finite x).
Qed.

Lemma get_score_stats_set d g data fs :
  wf d -> extracts (feature_functions d) (data, fs) = true ∨ stats_set d ->
  stats_set (get_score d g data fs).1.1.
Proof.
  intros Hwf Hor.
  get_score_cases d g data fs.
  - destruct Hor as [Hx|Hs]; [|done].
    unfold extracts in Hx. cbn [fst snd] in Hx. by rewrite Hex in Hx.
  - by exists m, s.
  - by exists m, s.
  - by exists m, s.
  - destruct (wf_update_stats d f Hwf) as (m1 & s1 & Hu). congruence.
  - destruct (wf_update_stats d f Hwf) as (m1 & s1 & Hu). congruence.
  - destruct (wf_update_stats d f Hwf) as (m1 & s1 & Hu). congruence.
Qed.

Lemma run_stats_set stream : ∀ d g,
  wf d -> fed (feature_functions d) stream ≠ 0%nat ∨ stats_set d ->
  stats_set (final (run d g stream)).
Proof.
  induction stream as [|[data fs] rest IH]; intros d g Hwf Hor.
  - by destruct Hor.
  - simpl.
    pose proof (get_score_wf d g data fs Hwf) as Hwf1.
    pose proof (get_score_stats_set d g data fs Hwf) as Hs1.
    pose proof (get_score_config d g data fs) as (Hff & _).
    rewrite fed_cons in Hor.
    destruct (get_score d g data fs) as [[d1 g1] r1]. cbn [fst snd] in *.
    specialize (IH d1 g1 Hwf1). rewrite Hff in IH.
    destruct (run d1 g1 rest) as [[d2 g2] rs]. unfold final in *.
    cbn [fst snd] in *. apply IH.
    destruct (extracts (feature_functions d) (data, fs)).
    + right. apply Hs1. by left.
    + destruct Hor as [Hfed|Hs]; [by left|]. right. apply Hs1. by right.
Qed.

(** A stream none of whose chunks gets through the feature functions has
    changed nothing. *)
Lemma run_unfed stream : ∀ d g,
  fed (feature_functions d) stream = 0%nat ->
  final (run d g stream) = d ∧ final_rng (run d g stream) = g.
Proof.
  induction stream as [|[data fs] rest IH]; intros d g Hfed; [done|].
  rewrite fed_cons in Hfed. simpl.
  destruct (extracts (feature_functions d) (data, fs)) eqn:Hx; [lia|].
  unfold extracts in Hx. cbn [fst snd] in Hx.
  destruct (extract_features (feature_functions d) data fs) as [e|f] eqn:Hex;
    [|done].
  rewrite (get_score_unfed _ _ _ _ _ Hex).
  specialize (IH d g Hfed).
  by destruct (run d g rest) as [[d2 g2] rs].
Qed.

Lemma get_score_first d g data fs f :
  mean d = None ->
  extract_features (feature_functions d) data fs = inr f ->
  mean (get_score d g data fs).1.1 = Some f ∧
  std (get_score d g data fs).1.1 = Some (np_ones_like f) ∧
  normalized_features d data fs = Some (zscore f f (np_ones_like f)).
Proof.
  intros Hm Hf. unfold normalized_features, get_score.
  rewrite Hf, Hm. cbn [update_stats]. case_bool_decide; [done|].
  destruct (np_random_normal _ _ _ _) as [noise g1].
  destruct (score_forest _ _ _ _ _) as [[ts g2] [e|sc]]; done.
Qed.

(** C4, with the first output spelled out.  A call on which a feature
    function raises leaves the normalizer, and the detector, as they were.
    The first call on a pipeline built by [__init__] that gets through the
    feature functions sets the mean to the feature vector and the
    deviation to ones; its output [(features - mean) / (deviation + 1e-9)]
    is [0] in every coordinate whose feature is finite and [nan] in the
    others.  Every later such call smooths the mean with weight
    [alpha = 0.01], smooths the deviation with [|features - mean|] taken
    at the new mean, and outputs [(features - mean) / (deviation + 1e-9)]
    for the new mean and deviation.  The output is what is pushed on the
    shingle buffer.  When every chunk gets through the feature functions,
    the first such call is the first call. *)
Theorem normalizer_update ffs K n cap g0 stream data fs :
  let before := run (init ffs K n cap) g0 stream in
  let d := final before in
  let d' := (get_score d (final_rng before) data fs).1.1 in
  (∀ e, extract_features ffs data fs = inl e -> d' = d) ∧
  (∀ f, extract_features ffs data fs = inr f ->
     ∃ out,
       normalized_features d data fs = Some out ∧
       shingle_buffer d' = push_shingle K (shingle_buffer d) out ∧
       (fed ffs stream = 0%nat ->
          mean d' = Some f ∧ std d' = Some (map (fun _ => 1) f) ∧
          out = vdiv (vsub f f) (vadd_scalar (map (fun _ => 1) f) 1e-9) ∧
          out = map (fun x => if PrimFloat.is_finite x then 0 else nan) f) ∧
       (fed ffs stream ≠ 0%nat ->
          ∃ m0 s0, mean d = Some m0 ∧ std d = Some s0 ∧
          let m1 := vadd (vscale (1 - 0.01) m0) (vscale 0.01 f) in
          let s1 := vadd (vscale (1 - 0.01) s0)
                         (vscale 0.01 (np_abs (vsub f m1))) in
          mean d' = Some m1 ∧ std d' = Some s1 ∧
          out = vdiv (vsub f m1) (vadd_scalar s1 1e-9))) ∧
  (Forall (fun c => extracts ffs c = true) stream ->
     fed ffs stream = length stream).
Proof.
  cbv zeta.
  pose proof (run_wf stream (init ffs K n cap) g0 (init_wf _ _ _ _)) as Hwf.
  pose proof (run_config stream (init ffs K n cap) g0) as (Hff & HK & _ & Ha & _).
  simpl in Hff, HK, Ha.
  pose proof (run_unfed stream (init ffs K n cap) g0) as Hun.
  pose proof (run_stats_set stream (init ffs K n cap) g0 (init_wf _ _ _ _)) as Hss.
  cbn [init feature_functions] in Hun, Hss.
  set (d := final (run (init ffs K n cap) g0 stream)) in *.
  set (g := final_rng (run (init ffs K n cap) g0 stream)) in *.
  split; [|split; [|apply fed_all]].
  - intros e He. rewrite <- Hff in He.
    by rewrite (get_score_unfed _ _ _ _ _ He).
  - intros f Hf. rewrite <- Hff in Hf.
    destruct (normalized_features_Some d data fs Hwf) as [Hnf _].
    destruct (Hnf f Hf) as (m1 & s1 & Hu & Hout).
    exists (zscore f m1 s1). split; [done|]. split; [|split].
    + rewrite <- HK. pose proof (get_score_pushed d g data fs Hwf) as Hp.
      by rewrite Hout in Hp.
    + intros Hz. destruct (Hun Hz) as [Hd _].
      assert (mean d = None) as Hm by (by rewrite Hd).
      destruct (get_score_first d g data fs f Hm Hf) as (Hm1 & Hs1 & Ho).
      rewrite Hout in Ho. injection Ho as Ho.
      rewrite Hm1, Hs1, Ho. repeat split. apply zscore_first.
    + intros Hnz.
      destruct (Hss (or_introl Hnz)) as (m0 & s0 & Hm & Hs).
      exists m0, s0. split; [done|]. split; [done|].
      rewrite Hm, Hs, Ha in Hu. cbn [update_stats] in Hu.
      injection Hu as <- <-.
      unfold get_score. rewrite Hf, Hm, Hs, Ha. cbn [update_stats].
      unfold ema, zscore. case_bool_decide; [done|].
      destruct (np_random_normal _ _ _ _) as [noise g1].
      destruct (score_forest _ _ _ _ _) as [[ts g2] [e|sc]]; done.
Qed.

(** ** No validation of the chunk *)

(** C8, as the code has it.  [get_score] has no check of the chunk and no
    failure of its own for it: an empty chunk goes to the feature functions
    like any other.  When one of them raises on it, the call raises that
    exception and has changed nothing; [calc_spectral_centroid] does so,
    with [ValueError] from numpy.  When all of them return, as [calc_rms]
    does, with [nan], the chunk is normalized and pushed on the buffer and
    the call is answered like any other: not ready while fewer than [K]
    chunks have got through, and from then on with a computed score unless
    the loop over the trees raises. *)
Theorem empty_chunk_is_scored ffs K n cap g earlier fs centroid :
  let before := run (init ffs K n cap) g earlier in
  let d := final before in
  let call := get_score d (final_rng before) [] fs in
  (∀ e, extract_features ffs [] fs = inl e ->
     call = (d, final_rng before, Raised e)) ∧
  (∀ f, extract_features ffs [] fs = inr f ->
     (∃ out, normalized_features d [] fs = Some out ∧
             shingle_buffer call.1.1 = push_shingle K (shingle_buffer d) out) ∧
     ((S (fed ffs earlier) < K)%nat -> call.2 = NotReady) ∧
     ((K ≤ S (fed ffs earlier))%nat ->
        (∃ v, call.2 = Score v) ∨
        (∃ e, call.2 = Raised e ∧
              ((e = ValueError ∧ cap = 0%nat) ∨ rrcf_raises e)))) ∧
  extract_features [calc_rms] [] fs = inr [nan] ∧
  extract_features [calc_rms; calc_spectral_centroid centroid] [] fs
    = inl ValueError.
Proof.
  cbv zeta.
  pose proof (run_wf earlier (init ffs K n cap) g (init_wf _ _ _ _)) as Hwf.
  pose proof (run_config earlier (init ffs K n cap) g) as (Hff & HK & Hcap & _).
  pose proof (run_fed earlier (init ffs K n cap) g 0%nat (init_wf _ _ _ _) eq_refl)
    as Hlen.
  simpl in Hff, HK, Hcap, Hlen.
  set (d := final (run (init ffs K n cap) g earlier)) in *.
  set (g1 := final_rng (run (init ffs K n cap) g earlier)) in *.
  split; [|split; [|split; reflexivity]].
  - intros e He. rewrite <- Hff in He. by apply get_score_unfed.
  - intros f Hf. rewrite <- Hff in Hf. split; [|split].
    + destruct (normalized_features_Some d [] fs Hwf) as [Hnf _].
      destruct (Hnf f Hf) as (m1 & s1 & Hu & Hout).
      exists (zscore f m1 s1). split; [done|].
      pose proof (get_score_pushed d g1 [] fs Hwf) as Hp.
      by rewrite Hout, HK in Hp.
    + intros Hlt. apply (get_score_not_ready d g1 [] fs f Hwf Hf). lia.
    + intros Hge.
      destruct (get_score_ready d g1 [] fs f Hwf Hf) as [Hs|Hr]; [lia|by left|].
      right. by rewrite <- Hcap.
Qed.

(** ** What the caller receives *)

Lemma valid_scores_skip history s :
  (0 <? s) = false -> valid_scores (history ++ [s]) = valid_scores history.
Proof.
  intros Hs. unfold valid_scores. rewrite List.filter_app. simpl.
  rewrite Hs. apply app_nil_r.
Qed.

(** C7, as the code has it.  The caller receives a bare float: every call
    of a pipeline built by [__init__] that gets through the feature
    functions while fewer than [K] chunks have got through is a not-ready
    call and returns [0.0], the value a call with a computed score of zero
    returns, and [main_receiver] leaves every such value, like every score
    that is not above zero, out of its valid scores. *)
Theorem not_ready_returns_zero ffs K n cap g stream i r data fs :
  results (run (init ffs K n cap) g stream) !! i = Some r ->
  stream !! i = Some (data, fs) ->
  extracts ffs (data, fs) = true ->
  (fed ffs (take (S i) stream) < K)%nat ->
  r = NotReady ∧
  returned r = Some 0 ∧
  returned r = returned (Score 0) ∧
  (∀ history, valid_scores (history ++ [0]) = valid_scores history) ∧
  (∀ history s, (0 <? s) = false ->
     valid_scores (history ++ [s]) = valid_scores history).
Proof.
  intros Hi Hc Hx Hlt. apply extracts_inr in Hx as [f Hf].
  destruct (run_results stream (init ffs K n cap) g 0%nat i r data fs)
    as (_ & H2); [apply init_wf|done|done|done|].
  destruct (H2 f Hf) as (H1 & _). rewrite H1 by done. repeat split.
  - intros history. by apply valid_scores_skip.
  - intros history s. apply valid_scores_skip.
Qed.

(** ** What a call reads *)

(** A call reads the chunk through the outcome of the feature functions
    only, and the detector through the fields that [agree] compares. *)
Lemma get_score_agree d1 d2 g c1 f1 c2 f2 :
  agree d1 d2 ->
  extract_features (feature_functions d1) c1 f1 =
  extract_features (feature_functions d2) c2 f2 ->
  agree (get_score d1 g c1 f1).1.1 (get_score d2 g c2 f2).1.1 ∧
  (get_score d1 g c1 f1).1.2 = (get_score d2 g c2 f2).1.2 ∧
  (get_score d1 g c1 f1).2 = (get_score d2 g c2 f2).2.
Proof.
  intros Hag He. pose proof Hag as (HK & Hf & Hc & Hb & Ht & Hm & Hs & Ha).
  unfold get_score. rewrite He.
  destruct (extract_features (feature_functions d2) c2 f2) as [e|f];
    [by repeat split|].
  rewrite HK, Hf, Hc, Hb, Ht, Hm, Hs, Ha.
  destruct (update_stats _ _ _ _) as [[m|] [s|]]; cbn [fst snd];
    try (by repeat split).
  case_bool_decide; [by repeat split|].
  destruct (np_random_normal _ _ _ _) as [noise g1].
  destruct (score_forest _ _ _ _ _) as [[ts g2] [e|sc]]; by repeat split.
Qed.

Lemma run_agree s1 : ∀ s2 d1 d2 g,
  agree d1 d2 ->
  Forall2 (fun c1 c2 =>
     extract_features (feature_functions d1) c1.1 c1.2 =
     extract_features (feature_functions d2) c2.1 c2.2) s1 s2 ->
  results (run d1 g s1) = results (run d2 g s2) ∧
  agree (final (run d1 g s1)) (final (run d2 g s2)) ∧
  final_rng (run d1 g s1) = final_rng (run d2 g s2).
Proof.
  induction s1 as [|[c1 f1] s1 IH]; intros s2 d1 d2 g Hag HF.
  - by apply Forall2_nil_inv_l in HF as ->.
  - apply Forall2_cons_inv_l in HF as ([c2 f2] & s2' & Hc & HF & ->).
    simpl in Hc. simpl.
    destruct (get_score_agree d1 d2 g c1 f1 c2 f2 Hag Hc) as (Hag1 & Hg & Hr).
    pose proof (get_score_config d1 g c1 f1) as (Hff1 & _).
    pose proof (get_score_config d2 g c2 f2) as (Hff2 & _).
    destruct (get_score d1 g c1 f1) as [[d1' g1'] r1].
    destruct (get_score d2 g c2 f2) as [[d2' g2'] r2].
    cbn [fst snd] in *. subst g2' r2.
    rewrite <- Hff1, <- Hff2 in HF.
    destruct (IH s2' d1' d2' g1' Hag1 HF) as (Hrs & Hag2 & Hg2).
    destruct (run d1' g1' s1) as [[e1 h1] rs1].
    destruct (run d2' g1' s2') as [[e2 h2] rs2].
    unfold results, final, final_rng in *. cbn [fst snd] in *.
    by subst.
Qed.

(** ** More about [get_score] *)

(** *** The counter counts the scores *)

Lemma run_total_points stream : ∀ d g,
  total_points (final (run d g stream)) =
  (total_points d + length (List.filter is_score (results (run d g stream))))%nat.
Proof.
  induction stream as [|[data fs] rest IH]; intros d g.
  - unfold final, results. simpl. lia.
  - simpl. destruct (get_score d g data fs) as [[d1 g1] r] eqn:Hcall.
    specialize (IH d1 g1).
    destruct (run d1 g1 rest) as [[d2 g2] rs]. unfold final, results in *.
    cbn [fst snd] in *. rewrite IH. destruct r as [|v|e]; simpl.
    + destruct (get_score_NotReady _ _ _ _ _ _ Hcall)
        as (? & ? & ? & _ & _ & _ & _ & _ & _ & -> & _). lia.
    + destruct (get_score_Score _ _ _ _ _ _ _ Hcall)
        as (? & ? & ? & ? & ? & ? & _ & _ & _ & _ & _ & _ & _ & _ & _ & ->). lia.
    + rewrite (get_score_Raised _ _ _ _ _ _ _ Hcall). lia.
Qed.

(** X1.  After any stream of calls on a pipeline built by [__init__], the
    counter equals the number of calls that returned a computed score:
    not-ready calls and calls that raised have not moved it. *)
Theorem counter_counts_scores ffs K n cap g stream :
  total_points (final (run (init ffs K n cap) g stream)) =
  length (List.filter is_score (results (run (init ffs K n cap) g stream))).
Proof. by rewrite run_total_points. Qed.

(** *** The indices in the trees *)

Lemma size_window cap n : size (window cap n) = Nat.min n cap.
Proof. unfold window. apply size_set_seq. Qed.

Lemma elem_of_window cap n k :
  k ∈ window cap n <-> (n - Nat.min n cap ≤ k < n)%nat.
Proof. unfold window. rewrite elem_of_set_seq. lia. Qed.

Lemma window_oldest cap n oldest :
  oldest ∈ window cap n ->
  (∀ k, k ∈ window cap n -> (oldest ≤ k)%nat) ->
  oldest = (n - Nat.min n cap)%nat.
Proof.
  intros Hin Hmin. apply elem_of_window in Hin.
  assert ((n - Nat.min n cap)%nat ∈ window cap n) as Hlow
    by (apply elem_of_window; lia).
  specialize (Hmin _ Hlow). lia.
Qed.

Lemma tree_updated_window cap shingle n t t' :
  leaves t = window cap n ->
  tree_updated cap shingle n t t' ->
  leaves t' = window cap (S n).
Proof.
  intros Hw (t1 & g0 & g1 & He & Hi).
  rewrite (leaves_insert _ _ _ _ _ _ Hi).
  destruct (decide (size (leaves t) < cap)%nat) as [Hlt|Hge].
  - rewrite evict_below in He by done. injection He as <-.
    rewrite Hw, size_window in Hlt.
    rewrite Hw. apply set_eq. intros k.
    rewrite elem_of_union, elem_of_singleton, !elem_of_window. lia.
  - assert (leaves t ≠ ∅) as Hne.
    { intros Hemp. rewrite evict_empty in He by (done || lia). discriminate. }
    destruct (evict_oldest cap t) as (o & He' & Ho & Hmin); [lia|done|].
    rewrite He' in He.
    rewrite (leaves_forget _ _ _ He).
    rewrite Hw in Ho, Hmin. rewrite Hw, size_window in Hge.
    pose proof (window_oldest _ _ _ Ho Hmin) as ->.
    rewrite Hw. apply elem_of_window in Ho.
    apply set_eq. intros k.
    rewrite elem_of_union, elem_of_singleton, elem_of_difference,
      elem_of_singleton, !elem_of_window. lia.
Qed.

Lemma get_score_windowed d g data fs :
  wf d -> windowed d ->
  answered (feature_functions d) (data, fs) (get_score d g data fs).2 ->
  windowed (get_score d g data fs).1.1.
Proof.
  intros Hwf Hwin Hans.
  pose proof (get_score_config d g data fs) as (_ & _ & Hcap & _).
  destruct (get_score d g data fs) as [[d' g'] r] eqn:Hcall.
  cbn [fst snd] in *. unfold windowed. rewrite Hcap.
  destruct r as [|v|e].
  - destruct (get_score_NotReady _ _ _ _ _ _ Hcall)
      as (? & ? & ? & _ & _ & _ & _ & _ & _ & -> & -> & _). exact Hwin.
  - destruct (get_score_Score _ _ _ _ _ _ _ Hcall)
      as (? & ? & ? & ? & ? & ? & _ & _ & _ & _ & _ & _ & _ & Hsf & _ & ->).
    destruct (score_forest_scores _ _ _ _ _ _ _ _ Hsf) as [_ HF].
    unfold windowed in Hwin. clear Hsf Hcall.
    induction HF as [|t t' ts ts' Hup HF IH]; [constructor|].
    apply Forall_cons in Hwin as [Ht Hts]. constructor; [|by apply IH].
    by eapply tree_updated_window.
  - destruct (get_score_Raised_wf _ _ _ _ _ _ _ Hwf Hcall)
      as [(_ & -> & _)|(f & ? & ? & ? & ? & Hex & _)]; [exact Hwin|].
    assert (extracts (feature_functions d) (data, fs) = true) as Hx
      by (apply extracts_inr; eauto).
    by specialize (Hans Hx).
Qed.

Lemma run_windowed stream : ∀ d g,
  wf d -> windowed d ->
  Forall2 (answered (feature_functions d)) stream (results (run d g stream)) ->
  windowed (final (run d g stream)).
Proof.
  induction stream as [|[data fs] rest IH]; intros d g Hwf Hwin Hall; [done|].
  simpl in *. pose proof (get_score_wf d g data fs Hwf) as Hwf1.
  pose proof (get_score_windowed d g data fs Hwf Hwin) as Hwin1.
  pose proof (get_score_config d g data fs) as (Hff & _).
  destruct (get_score d g data fs) as [[d1 g1] r]. cbn [fst snd] in *.
  specialize (IH d1 g1 Hwf1). rewrite Hff in IH.
  destruct (run d1 g1 rest) as [[d2 g2] rs]. unfold results, final in *.
  cbn [fst snd] in *. apply Forall2_cons in Hall as [Hr Hrest].
  apply IH; [by apply Hwin1|done].
Qed.

(** X2.  Eviction is first in, first out.  After a stream of calls on a
    pipeline built by [__init__] in which no call raised in the loop over
    the trees (a call that got through the feature functions returned),
    every tree of the forest holds exactly the indices of the last
    [min(total_points, tree_size)] scored points:
    [total_points - min(total_points, tree_size)] up to
    [total_points - 1]. *)
Theorem forest_holds_last_indices ffs K n cap g stream :
  Forall2 (answered ffs) stream (results (run (init ffs K n cap) g stream)) ->
  let d := final (run (init ffs K n cap) g stream) in
  Forall (fun t => leaves t = window cap (total_points d)) (forest d) ∧
  Forall (fun t => ∀ k, k ∈ leaves t <->
            (total_points d - Nat.min (total_points d) cap ≤ k
             < total_points d)%nat) (forest d).
Proof.
  intros Hall. cbv zeta.
  pose proof (run_windowed stream (init ffs K n cap) g (init_wf _ _ _ _)) as Hw.
  pose proof (run_config stream (init ffs K n cap) g) as (_ & _ & Hcap & _).
  unfold windowed in Hw. rewrite Hcap in Hw. simpl in Hw.
  assert (Forall (fun t => leaves t =
            window cap (total_points (final (run (init ffs K n cap) g stream))))
            (forest (final (run (init ffs K n cap) g stream)))) as H1.
  { apply Hw; [|done]. apply list.Forall_forall. intros t Ht%elem_of_replicate.
    destruct Ht as [-> _]. rewrite leaves_new. simpl.
    unfold window. simpl. done. }
  split; [exact H1|].
  eapply Forall_impl; [exact H1|]. intros t -> k. apply elem_of_window.
Qed.

(** *** The shape of the arrays *)

Lemma length_ema a old new n :
  length old = n -> length new = n -> length (ema a old new) = n.
Proof.
  intros Ho Hn. unfold ema, vadd, vscale.
  rewrite length_zip_with, !length_map. lia.
Qed.

Lemma length_zscore f m s n :
  length f = n -> length m = n -> length s = n -> length (zscore f m s) = n.
Proof.
  intros Hf Hm Hs. unfold zscore, vdiv, vsub, vadd_scalar.
  rewrite !length_zip_with, length_map. lia.
Qed.

Lemma update_stats_shaped a m s f n m1 s1 :
  length f = n ->
  (∀ m0, m = Some m0 -> length m0 = n) ->
  (∀ s0, s = Some s0 -> length s0 = n) ->
  update_stats a m s f = (Some m1, Some s1) ->
  length m1 = n ∧ length s1 = n.
Proof.
  intros Hf Hm Hs. unfold update_stats.
  destruct m as [m0|]; [destruct s as [s0|]|]; intros [= <- <-].
  - specialize (Hm _ eq_refl). specialize (Hs _ eq_refl).
    assert (length (ema a m0 f) = n) as Hm1 by by apply length_ema.
    split; [done|]. apply length_ema; [done|].
    unfold np_abs, vsub. rewrite length_map, length_zip_with. lia.
  - split; [done|]. unfold np_ones_like. by rewrite length_map.
Qed.

Lemma push_shingle_Forall (P : vec -> Prop) k buf v :
  Forall P buf -> P v -> Forall P (push_shingle k buf v).
Proof.
  intros Hb Hv. unfold push_shingle.
  assert (Forall P (buf ++ [v])) as Ha by (apply Forall_app; auto).
  case_bool_decide; [|done].
  destruct (buf ++ [v]) as [|x l]; [done|]. simpl.
  by apply Forall_cons in Ha as [_ ?].
Qed.

Lemma get_score_shaped d g data fs :
  shaped d -> shaped (get_score d g data fs).1.1.
Proof.
  intros Hsh. pose proof Hsh as [Hm Hs Hb].
  get_score_cases d g data fs; [done|..];
    pose proof (length_extract_features _ _ _ _ Hex) as Hf;
    pose proof (fun m1 s1 => update_stats_shaped (alpha d) (mean d) (std d)
      _ _ m1 s1 Hf Hm Hs) as Hu.
  - destruct (Hu m s Hst) as [Hm1 Hs1].
    split; simpl; [by intros ? [= <-]|by intros ? [= <-]|].
    apply push_shingle_Forall; [done|]. by apply length_zscore.
  - destruct (Hu m s Hst) as [Hm1 Hs1].
    split; simpl; [by intros ? [= <-]|by intros ? [= <-]|].
    apply push_shingle_Forall; [done|]. by apply length_zscore.
  - destruct (Hu m s Hst) as [Hm1 Hs1].
    split; simpl; [by intros ? [= <-]|by intros ? [= <-]|].
    apply push_shingle_Forall; [done|]. by apply length_zscore.
  - split; simpl; [|done|done]. intros m1 [= <-].
    unfold update_stats in Hst.
    destruct (mean d) as [m0|]; [|discriminate].
    destruct (std d) as [s0|]; injection Hst as <-;
      apply length_ema; auto.
  - unfold update_stats in Hst.
    destruct (mean d); [destruct (std d)|]; discriminate.
  - unfold update_stats in Hst.
    destruct (mean d); [destruct (std d)|]; discriminate.
Qed.

Lemma run_shaped stream : ∀ d g, shaped d -> shaped (final (run d g stream)).
Proof.
  induction stream as [|[data fs] rest IH]; intros d g Hs; [done|].
  simpl. pose proof (get_score_shaped d g data fs Hs) as Hs1.
  destruct (get_score d g data fs) as [[d1 g1] r]. cbn [fst snd] in *.
  specialize (IH d1 g1 Hs1).
  by destruct (run d1 g1 rest) as [[d2 g2] rs].
Qed.

Lemma length_concat_uniform (rows : list vec) n :
  Forall (fun v => length v = n) rows ->
  length (concat rows) = (length rows * n)%nat.
Proof.
  induction 1 as [|v rows Hv _ IH]; [done|].
  simpl. rewrite length_app, IH, Hv. lia.
Qed.

(** X3.  Every array of a pipeline built by [__init__] has one entry per
    feature function: the mean, the deviation and each vector of the
    buffer.  The point a scoring call gives to the trees has
    [shingle_size * len(feature_functions)] coordinates, in every call. *)
Theorem point_dimension ffs K n cap g0 stream data fs :
  let before := run (init ffs K n cap) g0 stream in
  let d := final before in
  let call := get_score d (final_rng before) data fs in
  (∀ m, mean d = Some m -> length m = length ffs) ∧
  (∀ s, std d = Some s -> length s = length ffs) ∧
  Forall (fun v => length v = length ffs) (shingle_buffer d) ∧
  (∀ v, call.2 = Score v ->
     ∃ shingle,
       length shingle = (K * length ffs)%nat ∧
       Forall2 (tree_updated cap shingle (total_points d))
         (forest d) (forest call.1.1)).
Proof.
  cbv zeta.
  pose proof (run_wf stream (init ffs K n cap) g0 (init_wf _ _ _ _)) as Hwf.
  pose proof (run_config stream (init ffs K n cap) g0) as (Hff & HK & Hc & _).
  simpl in Hff, HK, Hc.
  assert (shaped (init ffs K n cap)) as Hs0 by (by split).
  pose proof (run_shaped stream (init ffs K n cap) g0 Hs0) as Hsh.
  set (d := final (run (init ffs K n cap) g0 stream)) in *.
  set (g := final_rng (run (init ffs K n cap) g0 stream)) in *.
  pose proof Hsh as [Hm Hs Hb]. rewrite Hff in Hm, Hs, Hb.
  repeat split; try done.
  intros v Hv.
  pose proof (get_score_shaped d g data fs Hsh) as [_ _ Hb1].
  pose proof (get_score_wf d g data fs Hwf) as [_ Hlen1 _].
  pose proof (get_score_config d g data fs) as (Hff1 & HK1 & _).
  destruct (get_score d g data fs) as [[d' g'] r] eqn:Hcall.
  cbn [fst snd] in *. subst r.
  destruct (get_score_Score _ _ _ _ _ _ _ Hcall)
    as (f & m1 & s1 & noise & g1 & scores & _ & _ & _ & _ & Hbuf & Hfull & Hn & Hsf & _).
  cbv zeta in *. rewrite <- Hbuf in *. rewrite Hc in Hsf.
  destruct (score_forest_scores _ _ _ _ _ _ _ _ Hsf) as [_ HF].
  eexists. split; [|exact HF].
  pose proof (np_random_normal_shape 0 1e-10
    (length (flatten (shingle_buffer d'))) g) as Hns. rewrite Hn in Hns.
  simpl in Hns. unfold vadd. rewrite length_zip_with, Hns.
  unfold flatten. rewrite (length_concat_uniform _ (length ffs)).
  2:{ by rewrite Hff1, Hff in Hb1. }
  rewrite HK1, HK in *.
  assert (length (shingle_buffer d') = K) as -> by lia. lia.
Qed.

(** *** The sampling rate *)

Lemma extract_features_fs ffs data fs1 fs2 :
  Forall (fun f => fn_name f ∉ ["calc_spectral_centroid"; "calc_centroid"]) ffs ->
  extract_features ffs data fs1 = extract_features ffs data fs2.
Proof.
  induction 1 as [|func rest Hf _ IH]; [done|].
  simpl. rewrite IH. unfold call_feature, takes_fs.
  by rewrite bool_decide_eq_false_2.
Qed.

(** X4.  The sampling rate reaches only feature functions named
    [calc_spectral_centroid] or [calc_centroid]: a pipeline with no such
    function returns the same results whatever rates its calls are given. *)
Theorem sampling_rate_ignored ffs K n cap g stream rate :
  Forall (fun f => fn_name f ∉ ["calc_spectral_centroid"; "calc_centroid"]) ffs ->
  results (run (init ffs K n cap) g stream) =
  results (run (init ffs K n cap) g (map (fun c => (c.1, rate)) stream)).
Proof.
  intros Hn.
  destruct (run_agree stream (map (fun c => (c.1, rate)) stream)
    (init ffs K n cap) (init ffs K n cap) g) as (Hr & _); [by repeat split| |done].
  apply Forall2_fmap_r, Forall_Forall2_diag, Forall_forall.
  intros [c f] _. simpl. by apply extract_features_fs.
Qed.

(** *** No room, no trees *)

Lemma run_zero_capacity stream : ∀ d g,
  wf d -> tree_size d = 0%nat -> forest d ≠ [] ->
  forest (final (run d g stream)) = forest d ∧
  total_points (final (run d g stream)) = total_points d.
Proof.
  induction stream as [|[data fs] rest IH]; intros d g Hwf Hz Hne; [done|].
  simpl. pose proof (get_score_wf d g data fs Hwf) as Hwf1.
  pose proof (get_score_config d g data fs) as (_ & _ & Hcap & _).
  destruct (get_score d g data fs) as [[d1 g1] r] eqn:Hcall.
  cbn [fst snd] in *.
  assert (forest d1 = forest d ∧ total_points d1 = total_points d) as [Hf Ht].
  { destruct (forest d) as [|t ts] eqn:Hfd; [done|].
    assert (size (leaves t) ≤ 0)%nat as Hsz.
    { destruct Hwf as [_ _ Hfor]. rewrite Hfd, Hz in Hfor.
      by apply Forall_cons in Hfor as [? _]. }
    destruct r as [|v|e].
    - by destruct (get_score_NotReady _ _ _ _ _ _ Hcall)
        as (? & ? & ? & _ & _ & _ & _ & _ & _ & -> & -> & _).
    - destruct (get_score_Score _ _ _ _ _ _ _ Hcall)
        as (? & ? & ? & ? & ? & ? & _ & _ & _ & _ & _ & _ & _ & Hsf & _).
      rewrite Hz, Hfd, score_forest_zero in Hsf by done. discriminate.
    - pose proof (get_score_Raised _ _ _ _ _ _ _ Hcall) as Htp.
      destruct (get_score_Raised_wf _ _ _ _ _ _ _ Hwf Hcall)
        as [(_ & -> & _)|(? & ? & ? & ? & ? & _ & _ & _ & _ & _ & _ & _ & Hsf)];
        [done|].
      rewrite Hz, Hfd, score_forest_zero in Hsf by done.
      by injection Hsf as <- _ _. }
  destruct (IH d1 g1 Hwf1) as [Hf2 Ht2]; [congruence|congruence|].
  destruct (run d1 g1 rest) as [[d2 g2] rs]. unfold final in *.
  cbn [fst snd] in *. split; congruence.
Qed.

(** X5.  With [tree_size = 0] and at least one tree no point is ever
    scored: a call that gets through the feature functions returns the
    not-ready result while fewer than [K] chunks have got through, and
    raises [ValueError] (from [min] of no keys) from then on; a call on
    which a feature function raises raises that exception.  The counter
    stays at 0 and the trees stay as [__init__] made them. *)
Theorem capacity_zero_always_raises ffs K n g stream :
  (0 < n)%nat ->
  let after := run (init ffs K n 0) g stream in
  (∀ i r data fs,
     results after !! i = Some r -> stream !! i = Some (data, fs) ->
     (∀ e, extract_features ffs data fs = inl e -> r = Raised e) ∧
     (∀ f, extract_features ffs data fs = inr f ->
        ((fed ffs (take (S i) stream) < K)%nat -> r = NotReady) ∧
        ((K ≤ fed ffs (take (S i) stream))%nat -> r = Raised ValueError))) ∧
  total_points (final after) = 0%nat ∧
  forest (final after) = replicate n RCTree_new.
Proof.
  intros Hn. cbv zeta.
  assert (forest (init ffs K n 0) ≠ []) as Hne
    by (simpl; destruct n; [lia|done]).
  split.
  - intros i r data fs Hi Hc.
    destruct (run_results stream (init ffs K n 0) g 0%nat i r data fs)
      as (H1 & H2); [apply init_wf|done|done|done|].
    simpl in *. split; [done|]. intros f Hf.
    destruct (H2 f Hf) as (Ha & _ & Hb). split; [done|].
    intros Hge. by apply Hb.
  - by destruct (run_zero_capacity stream (init ffs K n 0) g
      (init_wf _ _ _ _) eq_refl Hne) as [-> ->].
Qed.

Lemma get_score_no_trees d g data fs f :
  wf d -> forest d = [] ->
  extract_features (feature_functions d) data fs = inr f ->
  (shingle_size d ≤ S (length (shingle_buffer d)))%nat ->
  (get_score d g data fs).2 = Score nan.
Proof.
  intros Hwf Hfd Hf Hge. pose proof Hwf as [_ Hbuf _].
  destruct (wf_update_stats d f Hwf) as (m1 & s1 & Hu).
  unfold get_score. rewrite Hf, Hu.
  rewrite bool_decide_eq_false_2 by (rewrite length_push_shingle; [lia|done]).
  destruct (np_random_normal _ _ _ _) as [noise g1].
  rewrite Hfd. reflexivity.
Qed.

Lemma run_no_trees stream : ∀ d g c i r data fs f,
  wf d -> forest d = [] ->
  length (shingle_buffer d) = Nat.min c (shingle_size d) ->
  results (run d g stream) !! i = Some r ->
  stream !! i = Some (data, fs) ->
  extract_features (feature_functions d) data fs = inr f ->
  (shingle_size d ≤ c + fed (feature_functions d) (take (S i) stream))%nat ->
  r = Score nan.
Proof.
  induction stream as [|[data0 fs0] rest IH];
    intros d g c i r data fs f Hwf Hfd Hlen Hi Hc Hf Hge; [done|].
  simpl in Hi.
  pose proof (get_score_wf d g data0 fs0 Hwf) as Hwf1.
  pose proof (get_score_fed d g data0 fs0 c Hwf Hlen) as Hb1.
  pose proof (get_score_config d g data0 fs0) as (Hff & HK & _ & _ & Hnf).
  destruct i as [|i].
  - simpl in Hc. injection Hc as -> ->. clear IH.
    cbn [take] in Hge. rewrite take_0, fed_cons in Hge.
    unfold fed in Hge. cbn [List.filter length] in Hge.
    assert (extracts (feature_functions d) (data, fs) = true) as Hx
      by (apply extracts_inr; eauto).
    rewrite Hx in Hge.
    pose proof (get_score_no_trees d g data fs f Hwf Hfd Hf) as Hnan.
    destruct (get_score d g data fs) as [[d1 g1] r1]. cbn [fst snd] in *.
    destruct (run d1 g1 rest) as [[d2 g2] rs]. unfold results in Hi.
    simpl in Hi. injection Hi as <-. apply Hnan. lia.
  - simpl in Hc.
    destruct (get_score d g data0 fs0) as [[d1 g1] r1]. cbn [fst snd] in *.
    specialize (IH d1 g1
      (c + (if extracts (feature_functions d) (data0, fs0) then 1 else 0))%nat
      i r data fs f Hwf1).
    rewrite HK, Hff in IH.
    destruct (run d1 g1 rest) as [[d2 g2] rs]. unfold results in *.
    cbn [fst snd] in *. simpl in Hi.
    apply IH; try done.
    + rewrite Hfd in Hnf. by destruct (forest d1).
    + replace (take (S (S i)) ((data0, fs0) :: rest))
        with ((data0, fs0) :: take (S i) rest) in Hge by done.
      rewrite fed_cons in Hge. lia.
Qed.

(** X6.  A pipeline with no trees ([num_trees = 0]) never raises in the
    loop and never scores a point: a call that gets through the feature
    functions returns the not-ready result while fewer than [K] chunks have
    got through, and [nan], the mean of no values, from then on. *)
Theorem empty_forest_scores_nan ffs K cap g stream i r data fs :
  results (run (init ffs K 0 cap) g stream) !! i = Some r ->
  stream !! i = Some (data, fs) ->
  (∀ e, extract_features ffs data fs = inl e -> r = Raised e) ∧
  (∀ f, extract_features ffs data fs = inr f ->
     ((fed ffs (take (S i) stream) < K)%nat -> r = NotReady) ∧
     ((K ≤ fed ffs (take (S i) stream))%nat ->
        r = Score nan ∧ returned r = Some nan)).
Proof.
  intros Hi Hc.
  destruct (run_results stream (init ffs K 0 cap) g 0%nat i r data fs)
    as (H1 & H2); [apply init_wf|done|done|done|].
  simpl in *. split; [done|]. intros f Hf.
  destruct (H2 f Hf) as (Ha & _ & _). split; [done|].
  intros Hge.
  rewrite (run_no_trees stream (init ffs K 0 cap) g 0%nat i r data fs f);
    try done.
  apply init_wf.
Qed.

(** ** The receiver *)

Lemma push_last_n {A} k (l : list A) x :
  (length l ≤ k)%nat ->
  (if bool_decide (k < length (l ++ [x]))%nat then tail (l ++ [x]) else l ++ [x])
  = last_n k (l ++ [x]).
Proof.
  intros Hle. unfold last_n. rewrite length_app. cbn [length].
  case_bool_decide as Hk.
  - replace (length l + 1 - k)%nat with 1%nat by lia.
    by destruct (l ++ [x]).
  - by replace (length l + 1 - k)%nat with 0%nat by lia.
Qed.

Lemma length_last_n {A} k (l : list A) :
  length (last_n k l) = Nat.min (length l) k.
Proof. unfold last_n. rewrite length_drop. lia. Qed.

(** The clock passes the warm-up time with the 300th addition of [0.1],
    not before. *)
Lemma clock_warmup k :
  (k < 300)%nat -> (WARMUP_TIME <=? clock k) = false.
Proof.
  intros Hk.
  assert (forallb (fun k => negb (WARMUP_TIME <=? clock k)) (seq 0 300) = true)
    as Hall by (vm_compute; reflexivity).
  rewrite forallb_forall in Hall.
  specialize (Hall k). rewrite in_seq in Hall.
  apply negb_true_iff, Hall. lia.
Qed.

Lemma clock_300 : (WARMUP_TIME <=? clock 300) = true.
Proof. vm_compute. reflexivity. Qed.

Lemma judge_warmup k history score :
  (k < 300)%nat -> judge (clock k) history score = false.
Proof. intros Hk. unfold judge. by rewrite clock_warmup. Qed.

Ltac on_message_cases st g msg :=
  unfold on_message;
  let c := fresh "c" in
  destruct msg as [c|];
  [ let d1 := fresh "d1" in let g1 := fresh "g1" in let r := fresh "r" in
    let Hcall := fresh "Hcall" in
    destruct (get_score (detector st) g c FS) as [[d1 g1] r] eqn:Hcall;
    let score := fresh "score" in let Hret := fresh "Hret" in
    destruct (returned r) as [score|] eqn:Hret; cbv zeta; cbn [fst snd]
  | cbn [fst snd] ].

Lemma receiver_start_ok d : rx_ok (receiver_start d).
Proof. split; simpl; try done. Qed.

Lemma on_message_ok st g msg : rx_ok st -> rx_ok (on_message st g msg).1.
Proof.
  intros [Hs Hf Ht Hc Hl Hw].
  on_message_cases st g msg; [|by split|by split].
  assert (length (score_history st) ≤ MAX_PLOT_POINTS)%nat as Hle by lia.
  assert (length (time_history st) = length (score_history st)) as Hlt.
  { rewrite Ht, length_last_n, length_map, length_seq. lia. }
  split; cbn [score_history anomaly_flags time_history current_time
              last_update_time message_count].
  - case_bool_decide as Hfull; rewrite length_app in Hfull; cbn [length] in Hfull.
    + destruct (score_history st) as [|x l]; cbn [app tail length] in *; [lia|].
      rewrite length_app. cbn [length]. lia.
    + rewrite length_app. cbn [length]. lia.
  - case_bool_decide as Hfull; rewrite length_app in Hfull; cbn [length] in Hfull.
    + destruct (anomaly_flags st) as [|x l]; cbn [app tail length] in *; [lia|].
      rewrite length_app. cbn [length]. lia.
    + rewrite length_app. cbn [length]. lia.
  - replace (length (score_history st ++ [score]))
      with (length (time_history st ++ [current_time st]))
      by (rewrite !length_app; cbn [length]; lia).
    rewrite push_last_n by lia.
    rewrite Ht, Hc, last_n_app_last_n, seq_S, map_app. done.
  - rewrite Hc. done.
  - done.
  - intros Hcount. rewrite Hc, judge_warmup by lia.
    assert (Forall (fun flag => flag = false) (anomaly_flags st ++ [false]))
      as Hall by (apply Forall_app; split; [apply Hw; lia|by constructor]).
    case_bool_decide; [|done].
    destruct (anomaly_flags st ++ [false]) as [|x l]; [done|].
    by apply Forall_cons in Hall as [_ ?].
Qed.

Lemma receive_ok msgs : ∀ st g, rx_ok st -> rx_ok (receive st g msgs).1.
Proof.
  induction msgs as [|msg rest IH]; intros st g Hok; [done|].
  simpl. pose proof (on_message_ok st g msg Hok) as Hok1.
  destruct (on_message st g msg) as [st1 g1]. by apply IH.
Qed.

(** X7.  After any stream of messages the three histories of the receiver
    have one entry per recorded message, at most [MAX_PLOT_POINTS]:
    [min(message_count, 6000)] scores, time stamps and flags. *)
Theorem histories_aligned d g msgs :
  let st := (receive (receiver_start d) g msgs).1 in
  length (score_history st) = Nat.min (message_count st) MAX_PLOT_POINTS ∧
  length (time_history st) = Nat.min (message_count st) MAX_PLOT_POINTS ∧
  length (anomaly_flags st) = Nat.min (message_count st) MAX_PLOT_POINTS.
Proof.
  cbv zeta.
  destruct (receive_ok msgs (receiver_start d) g (receiver_start_ok d))
    as [Hs Hf Ht _ _ _].
  unfold MAX_PLOT_POINTS in *. repeat split; [lia| |lia].
  rewrite Ht, length_last_n, length_map, length_seq. lia.
Qed.

(** X8.  The clock of the receiver depends on the number of recorded
    messages alone: it is [0.1] added that many times to [0], and the time
    stamps kept are those of the last 6000 recorded messages, whatever the
    messages held. *)
Theorem clock_and_time_stamps d g msgs :
  let st := (receive (receiver_start d) g msgs).1 in
  current_time st = clock (message_count st) ∧
  last_update_time st = current_time st ∧
  time_history st =
    last_n MAX_PLOT_POINTS (map clock (seq 0 (message_count st))).
Proof.
  cbv zeta.
  by destruct (receive_ok msgs (receiver_start d) g (receiver_start_ok d))
    as [_ _ Ht Hc Hl _].
Qed.

(** X9.  No message is flagged during the warm-up: as long as at most 300
    messages have been recorded, every flag is [False].  The 301st recorded
    message is the first to meet a clock of at least [WARMUP_TIME]. *)
Theorem no_flag_during_warmup d g msgs :
  let st := (receive (receiver_start d) g msgs).1 in
  (message_count st ≤ 300)%nat ->
  Forall (fun flag => flag = false) (anomaly_flags st) ∧
  (WARMUP_TIME <=? clock 299) = false ∧ (WARMUP_TIME <=? clock 300) = true.
Proof.
  cbv zeta. intros Hc.
  destruct (receive_ok msgs (receiver_start d) g (receiver_start_ok d))
    as [_ _ _ _ _ Hw].
  split; [by apply Hw|]. split; [apply clock_warmup; lia|apply clock_300].
Qed.

Lemma decodable_cons c rest : decodable (Some c :: rest) = c :: decodable rest.
Proof. done. Qed.

(** *** The waveform buffer *)

Lemma on_message_waveform st g msg :
  (∀ c, msg = Some c -> length c = 2500%nat) ->
  length (waveform_data_all st) = (length (score_history st) * 2500)%nat ->
  length (waveform_data_all (on_message st g msg).1) =
  (length (score_history (on_message st g msg).1) * 2500)%nat.
Proof.
  intros Hc Hal. on_message_cases st g msg; [|done|done].
  specialize (Hc _ eq_refl).
  cbn [waveform_data_all score_history].
  case_bool_decide.
  - rewrite length_drop, !length_app, Hc, Hal.
    destruct (score_history st ++ [score]) as [|x l] eqn:Hsc.
    { by destruct (score_history st). }
    cbn [tail]. apply (f_equal length) in Hsc.
    rewrite length_app in Hsc. cbn [length] in Hsc. lia.
  - rewrite !length_app, Hc, Hal. cbn [length]. lia.
Qed.

Lemma receive_waveform msgs : ∀ st g,
  Forall (fun c => length c = 2500%nat) (decodable msgs) ->
  length (waveform_data_all st) = (length (score_history st) * 2500)%nat ->
  length (waveform_data_all (receive st g msgs).1) =
  (length (score_history (receive st g msgs).1) * 2500)%nat.
Proof.
  induction msgs as [|msg rest IH]; intros st g Hall Hal; [done|].
  cbn [receive].
  assert ((∀ c, msg = Some c -> length c = 2500%nat) ∧
          Forall (fun c => length c = 2500%nat) (decodable rest)) as [Hc Hrest].
  { destruct msg as [c|].
    - rewrite decodable_cons in Hall.
      apply Forall_cons in Hall as [Hc Hrest]. split; [by intros ? [= <-]|done].
    - split; [done|exact Hall]. }
  pose proof (on_message_waveform st g msg Hc Hal) as Hal1.
  destruct (on_message st g msg) as [st1 g1]. by apply IH.
Qed.

(** X10.  When every decodable message carries 2500 samples, the waveform
    buffer holds 2500 samples for each score kept in the history: chunk
    [i] of the plot is [waveform_data_all[2500*i : 2500*(i+1)]], also after
    old entries have been dropped. *)
Theorem waveform_aligned d g msgs :
  Forall (fun c => length c = 2500%nat) (decodable msgs) ->
  let st := (receive (receiver_start d) g msgs).1 in
  length (waveform_data_all st) = (length (score_history st) * 2500)%nat.
Proof. intros Hall. cbv zeta. by apply receive_waveform. Qed.

(** *** The receiver and its detector *)

Lemma omap_returned_cons r rs :
  omap returned (r :: rs) =
  match returned r with
  | Some x => x :: omap returned rs
  | None => omap returned rs
  end.
Proof. done. Qed.

Lemma receive_detector msgs : ∀ st g prior,
  score_history st = last_n MAX_PLOT_POINTS prior ->
  message_count st = length prior ->
  let calls := run (detector st) g (map (fun c => (c, FS)) (decodable msgs)) in
  let st' := (receive st g msgs).1 in
  detector st' = final calls ∧
  (receive st g msgs).2 = final_rng calls ∧
  score_history st' =
    last_n MAX_PLOT_POINTS (prior ++ omap returned (results calls)) ∧
  message_count st' = length (prior ++ omap returned (results calls)).
Proof.
  induction msgs as [|msg rest IH]; intros st g prior Hsc Hcount; cbv zeta.
  - simpl. unfold final, final_rng, results. simpl.
    by rewrite app_nil_r.
  - destruct msg as [c|]; [|by apply IH].
    rewrite decodable_cons. cbn [map receive run].
    unfold on_message.
    destruct (get_score (detector st) g c FS) as [[d1 g1] r] eqn:Hcall.
    destruct (returned r) as [score|] eqn:Hret.
    + match goal with |- context [receive ?s g1 rest] => set (st1 := s) end.
      destruct (IH st1 g1 (prior ++ [score])) as (Hd & Hg & Hs & Hm).
      { subst st1. cbn [score_history]. rewrite Hsc.
        rewrite push_last_n by (rewrite length_last_n; lia).
        by rewrite last_n_app_last_n. }
      { subst st1. cbn [message_count]. rewrite length_app. simpl. lia. }
      cbv zeta in *. subst st1. cbn [detector] in *.
      destruct (run d1 g1 (map (fun c => (c, FS)) (decodable rest)))
        as [[d2 g2] rs].
      unfold final, final_rng, results in *. cbn [fst snd omap] in *.
      rewrite omap_returned_cons, Hret.
      rewrite <- app_assoc in Hs, Hm. done.
    + match goal with |- context [receive ?s g1 rest] => set (st1 := s) end.
      destruct (IH st1 g1 prior) as (Hd & Hg & Hs & Hm); [done|done|].
      cbv zeta in *. subst st1. cbn [detector] in *.
      destruct (run d1 g1 (map (fun c => (c, FS)) (decodable rest)))
        as [[d2 g2] rs].
      unfold final, final_rng, results in *. cbn [fst snd omap] in *.
      rewrite omap_returned_cons, Hret. done.
Qed.

(** X11.  The receiver adds nothing of its own to the scoring: its
    detector is the one [get_score] leaves after the decodable messages,
    each scored at [FS], the scores it keeps are the last 6000 values that
    [get_score] returned, and it has counted exactly the calls that
    returned. *)
Theorem receiver_records_scores d g msgs :
  let calls := run d g (map (fun c => (c, FS)) (decodable msgs)) in
  let st := (receive (receiver_start d) g msgs).1 in
  detector st = final calls ∧
  score_history st = last_n MAX_PLOT_POINTS (omap returned (results calls)) ∧
  message_count st = length (omap returned (results calls)).
Proof.
  cbv zeta.
  destruct (receive_detector msgs (receiver_start d) g []) as (Hd & _ & Hs & Hm);
    [done|done|].
  cbv zeta in *. by simpl in *.
Qed.

Lemma returned_not_raised r :
  is_raised r = false -> ∃ x, returned r = Some x.
Proof. destruct r; simpl; [eauto|eauto|done]. Qed.

Lemma length_omap_returned rs :
  (length (omap returned rs) + length (List.filter is_raised rs))%nat
  = length rs.
Proof.
  induction rs as [|r rs IH]; [done|].
  rewrite omap_returned_cons. destruct r; simpl in *; lia.
Qed.

Lemma filter_is_raised_nil rs :
  Forall (fun r => is_raised r = false) rs -> List.filter is_raised rs = [].
Proof.
  induction 1 as [|r rs Hr _ IH]; [done|]. simpl. by rewrite Hr.
Qed.

(** X12.  A message that carries a list of samples is recorded or lost:
    it is lost exactly when [get_score] raises on it, so the messages
    recorded and the calls that raised add up to the messages that carried
    samples.  When no call raises, every such message is recorded. *)
Theorem decodable_messages_accounted d g msgs :
  let calls := run d g (map (fun c => (c, FS)) (decodable msgs)) in
  let st := (receive (receiver_start d) g msgs).1 in
  (message_count st + length (List.filter is_raised (results calls)))%nat
    = length (decodable msgs) ∧
  (Forall (fun r => is_raised r = false) (results calls) ->
     message_count st = length (decodable msgs)).
Proof.
  cbv zeta.
  destruct (receive_detector msgs (receiver_start d) g [])
    as (_ & _ & _ & Hm); [done|done|].
  cbv zeta in Hm. cbn [receiver_start detector app] in Hm. rewrite Hm.
  pose proof (length_omap_returned
    (results (run d g (map (fun c => (c, FS)) (decodable msgs))))) as Hacc.
  rewrite length_results, length_map in Hacc.
  split; [done|]. intros Hall.
  rewrite (filter_is_raised_nil _ Hall) in Hacc. simpl in Hacc. lia.
Qed.

(** *** Scores that are not numbers *)

Lemma ltb_nan x : (x <? nan) = false.
Proof.
  rewrite FloatAxioms.ltb_spec.
  replace (Prim2SF nan) with S754_nan by reflexivity.
  unfold SFltb, SFcompare. by destruct (Prim2SF x) as [[]|[]| |[] ? ?].
Qed.

(** X13.  A score of [nan] is never flagged, at any time and after any
    history, and it is left out of the valid scores from which later
    thresholds are computed. *)
Theorem nan_score_never_flagged now history :
  judge now history nan = false ∧
  ∀ later, valid_scores (history ++ nan :: later) =
           valid_scores (history ++ later).
Proof.
  split.
  - unfold judge. destruct (_ && _); [|done]. cbv zeta.
    case_bool_decide; [|done]. apply ltb_nan.
  - intros later. unfold valid_scores. by rewrite !List.filter_app.
Qed.

(** ** The sender *)

Lemma publish_prefix window (data : vec) q :
  (q * window ≤ length data)%nat ->
  concat (map (fun i => slice data (i * window) (i * window + window)) (seq 0 q))
  = take (q * window) data ∧
  Forall (fun c => length c = window)
    (map (fun i => slice data (i * window) (i * window + window)) (seq 0 q)).
Proof.
  induction q as [|q IH]; intros Hle; [by split; [|constructor]|].
  destruct IH as [IHc IHf]; [lia|].
  rewrite seq_S, map_app, concat_app. simpl. rewrite app_nil_r.
  unfold slice at 2 4.
  replace (q * window + window - q * window)%nat with window by lia.
  split.
  - rewrite IHc, take_take_drop. f_equal. lia.
  - apply Forall_app. split; [done|]. constructor; [|done].
    rewrite length_take, length_drop. lia.
Qed.

(** X14.  [start_sender] publishes [len(data) // 2500] chunks of exactly
    2500 samples each; put end to end they are the start of the data, and
    the fewer than 2500 samples after the last full window are never
    sent. *)
Theorem start_sender_chunks data :
  let sent := start_sender data in
  length sent = (length data / WINDOW_SIZE)%nat ∧
  Forall (fun c => length c = WINDOW_SIZE) sent ∧
  concat sent = take (length sent * WINDOW_SIZE) data ∧
  (length data - length (concat sent) < WINDOW_SIZE)%nat.
Proof.
  cbv zeta. unfold start_sender, publish. cbv zeta.
  assert (WINDOW_SIZE ≠ 0)%nat as Hw by done.
  pose proof (Nat.Div0.mul_div_le (length data) WINDOW_SIZE) as Hle.
  pose proof (Nat.div_mod_eq (length data) WINDOW_SIZE) as Hdm.
  pose proof (Nat.mod_upper_bound (length data) WINDOW_SIZE Hw) as Hmod.
  destruct (publish_prefix WINDOW_SIZE data (length data / WINDOW_SIZE))
    as [Hc Hf]; [lia|].
  rewrite length_map, length_seq. repeat split; try done.
  rewrite Hc, length_take. lia.
Qed.

(** ** From the sender to the receiver *)

Lemma last_n_app_r {A} k (l c : list A) :
  last_n k l ++ c = last_n (k + length c) (l ++ c).
Proof.
  unfold last_n. rewrite length_app.
  replace (length l + length c - (k + length c))%nat
    with (length l - k)%nat by lia.
  rewrite drop_app_le; [done|lia].
Qed.

Lemma decodable_Some chunks : decodable (map Some chunks) = chunks.
Proof.
  unfold decodable. induction chunks as [|c rest IH]; [done|].
  simpl. f_equal. exact IH.
Qed.

Lemma on_message_recorded st g c :
  is_raised (get_score (detector st) g c FS).2 = false ->
  message_count (on_message st g (Some c)).1 = S (message_count st) ∧
  detector (on_message st g (Some c)).1 = (get_score (detector st) g c FS).1.1 ∧
  (on_message st g (Some c)).2 = (get_score (detector st) g c FS).1.2 ∧
  waveform_data_all (on_message st g (Some c)).1 =
    (if bool_decide (MAX_PLOT_POINTS < S (length (score_history st)))%nat
     then drop 2500 (waveform_data_all st ++ c)
     else waveform_data_all st ++ c).
Proof.
  intros Hret. apply returned_not_raised in Hret as [x Hx].
  unfold on_message.
  destruct (get_score (detector st) g c FS) as [[d1 g1] r].
  cbn [fst snd] in *. rewrite Hx. cbv zeta. cbn [fst snd message_count detector
    waveform_data_all]. rewrite length_app. cbn [length].
  replace (length (score_history st) + 1)%nat
    with (S (length (score_history st))) by lia.
  done.
Qed.

Lemma receive_chunks chunks : ∀ st g prior,
  rx_ok st ->
  Forall (fun r => is_raised r = false)
    (results (run (detector st) g (map (fun c => (c, FS)) chunks))) ->
  Forall (fun c => length c = 2500%nat) chunks ->
  length prior = (message_count st * 2500)%nat ->
  waveform_data_all st = last_n (length (score_history st) * 2500) prior ->
  let st' := (receive st g (map Some chunks)).1 in
  message_count st' = (message_count st + length chunks)%nat ∧
  waveform_data_all st' =
    last_n (length (score_history st') * 2500) (prior ++ concat chunks).
Proof.
  induction chunks as [|c rest IH]; intros st g prior Hok Hret Hall Hp Hw;
    cbv zeta.
  - cbn [map receive concat length fst]. rewrite app_nil_r. split; [lia|done].
  - apply Forall_cons in Hall as [Hc Hrest]. cbn [map receive concat].
    pose proof (on_message_ok st g (Some c) Hok) as Hok1.
    cbn [map run] in Hret.
    pose proof (on_message_recorded st g c) as Hrec.
    destruct (get_score (detector st) g c FS) as [[d1 g1] r]. cbn [fst snd] in *.
    destruct (run d1 g1 (map (fun c => (c, FS)) rest)) as [[d2 g2] rs] eqn:Hrun.
    unfold results in Hret. cbn [snd] in Hret.
    apply Forall_cons in Hret as [Hr Hrs].
    destruct (Hrec Hr) as (Hm & Hd & Hg & Hwave).
    destruct (on_message st g (Some c)) as [st1 g1']. cbn [fst snd] in *.
    subst g1'.
    destruct (IH st1 g1 (prior ++ c)) as [Hm2 Hw2]; try done.
    + rewrite Hd, Hrun. exact Hrs.
    + rewrite length_app, Hc, Hm, Hp. lia.
    + rewrite Hwave, Hw.
      pose proof (rx_scores _ Hok) as Hs. pose proof (rx_scores _ Hok1) as Hs1.
      rewrite Hm in Hs1. unfold MAX_PLOT_POINTS in *.
      rewrite last_n_app_r, Hc. case_bool_decide.
      * unfold last_n. rewrite drop_drop, length_app, Hc, Hp. f_equal. lia.
      * f_equal. lia.
    + cbv zeta in *. rewrite Hm2, Hm. split; [cbn [length]; lia|].
      by rewrite <- app_assoc in Hw2.
Qed.

(** X15.  End to end, for a detector built by [__init__]: when the chunks
    published by [start_sender] are the messages of the receiver and
    [get_score] raises on none of them, every chunk is recorded, and the
    waveform buffer holds the samples of the last
    [min(number of chunks, 6000)] chunks as they were in the data; with at
    most 6000 chunks it is the data, up to the last full window. *)
Theorem sender_to_receiver ffs K n cap g data :
  Forall (fun r => is_raised r = false)
    (results (run (init ffs K n cap) g
                (map (fun c => (c, FS)) (start_sender data)))) ->
  let sent := start_sender data in
  let st := (receive (receiver_start (init ffs K n cap)) g (map Some sent)).1 in
  message_count st = (length data / WINDOW_SIZE)%nat ∧
  length (score_history st) = Nat.min (length sent) MAX_PLOT_POINTS ∧
  waveform_data_all st =
    last_n (Nat.min (length sent) MAX_PLOT_POINTS * 2500)
      (take (length sent * WINDOW_SIZE) data) ∧
  ((length sent ≤ MAX_PLOT_POINTS)%nat ->
   waveform_data_all st = take (length sent * WINDOW_SIZE) data).
Proof.
  intros Hret. cbv zeta.
  destruct (start_sender_chunks data) as (Hlen & Hall & Hcat & _).
  destruct (receive_chunks (start_sender data)
    (receiver_start (init ffs K n cap)) g []) as [Hm Hw];
    [apply receiver_start_ok|done|done|done|done|].
  cbv zeta in *.
  cbn [receiver_start message_count score_history app detector] in Hm, Hw.
  pose proof (receive_ok (map Some (start_sender data))
    (receiver_start (init ffs K n cap)) g (receiver_start_ok _)) as Hok.
  pose proof (rx_scores _ Hok) as Hs. rewrite Hm in Hs.
  rewrite Hm, Hs, Hw, Hs, Hcat. repeat split; try done.
  intros Hle. unfold last_n. rewrite length_take.
  replace (_ - _)%nat with 0%nat; [done|].
  unfold WINDOW_SIZE, MAX_PLOT_POINTS in *. lia.
Qed.

(** ** Chunks on which a feature function raises *)

Lemma run_skip stream : ∀ d g,
  let kept := List.filter (extracts (feature_functions d)) stream in
  run d g kept =
  (final (run d g stream), final_rng (run d g stream),
   map snd (List.filter (fun cr => extracts (feature_functions d) cr.1)
              (zip stream (results (run d g stream))))).
Proof.
  induction stream as [|[data fs] rest IH]; intros d g; cbv zeta; [done|].
  cbn [List.filter]. unfold extracts at 1. cbn [fst snd].
  destruct (extract_features (feature_functions d) data fs) as [e|f] eqn:Hex.
  - specialize (IH d g). cbv zeta in IH. rewrite IH. cbn [run].
    rewrite (get_score_unfed _ _ _ _ _ Hex).
    destruct (run d g rest) as [[d2 g2] rs]. unfold final, final_rng, results.
    cbn [fst snd zip zip_with List.filter]. unfold extracts at 2.
    cbn [fst snd]. by rewrite Hex.
  - cbn [run]. pose proof (get_score_config d g data fs) as (Hff & _).
    destruct (get_score d g data fs) as [[d1 g1] r]. cbn [fst snd] in *.
    specialize (IH d1 g1). cbv zeta in IH. rewrite Hff in IH. rewrite IH.
    destruct (run d1 g1 rest) as [[d2 g2] rs]. unfold final, final_rng, results.
    cbn [fst snd zip zip_with List.filter]. unfold extracts at 2.
    cbn [fst snd]. by rewrite Hex.
Qed.

(** X22.  A chunk on which a feature function raises is invisible to the
    detector: a stream of calls on a pipeline built by [__init__] ends with
    the same detector and the same state of the generator, and answers
    the other calls in the same way, as the stream without those chunks. *)
Theorem raising_chunks_invisible ffs K n cap g stream :
  let kept := List.filter (extracts ffs) stream in
  let calls := run (init ffs K n cap) g stream in
  final (run (init ffs K n cap) g kept) = final calls ∧
  final_rng (run (init ffs K n cap) g kept) = final_rng calls ∧
  results (run (init ffs K n cap) g kept) =
    map snd (List.filter (fun cr => extracts ffs cr.1)
               (zip stream (results calls))).
Proof.
  cbv zeta. pose proof (run_skip stream (init ffs K n cap) g) as Hs.
  cbv zeta in Hs. cbn [init feature_functions] in Hs. by rewrite Hs.
Qed.

(** X23.  The detector of [main_receiver.py] computes the spectral
    centroid, whose transform raises on a chunk of no samples: whatever
    the receiver has received before, a message with an empty list of
    samples is dropped by the [except] branch and leaves the receiver, its
    detector and the random generator exactly as they were. *)
Theorem empty_message_dropped centroid g msgs g' :
  let st := (receive (receiver_start (receiver_detector centroid)) g msgs).1 in
  (get_score (detector st) g' [] FS).2 = Raised ValueError ∧
  on_message st g' (Some []) = (st, g').
Proof.
  cbv zeta.
  destruct (receive_detector msgs (receiver_start (receiver_detector centroid))
              g []) as (Hd & _); [done|done|].
  cbv zeta in Hd. cbn [receiver_start detector] in Hd.
  pose proof (run_config (map (fun c => (c, FS)) (decodable msgs))
                (receiver_detector centroid) g) as (Hff & _).
  rewrite <- Hd in Hff. cbn [receiver_detector init feature_functions] in Hff.
  set (st := (receive (receiver_start (receiver_detector centroid)) g msgs).1)
    in *.
  assert (extract_features (feature_functions (detector st)) [] FS
          = inl ValueError) as Hex by (by rewrite Hff).
  pose proof (get_score_unfed _ g' _ _ _ Hex) as Hcall.
  split; [by rewrite Hcall|].
  unfold on_message. rewrite Hcall. cbn [returned]. by destruct st.
Qed.

(** ** A feature that is not a number *)

Lemma nan_of_SF x : Prim2SF x = S754_nan -> x = nan.
Proof. intros Hx. by rewrite <- (SF2Prim_Prim2SF x), Hx. Qed.

Lemma mul_nan_r x : x * nan = nan.
Proof.
  apply nan_of_SF. rewrite FloatAxioms.mul_spec.
  replace (Prim2SF nan) with S754_nan by reflexivity.
  by destruct (Prim2SF x) as [[]|[]| |[] ? ?].
Qed.

Lemma add_nan_l x : nan + x = nan.
Proof.
  apply nan_of_SF. rewrite FloatAxioms.add_spec.
  replace (Prim2SF nan) with S754_nan by reflexivity.
  by destruct (Prim2SF x) as [[]|[]| |[] ? ?].
Qed.

Lemma add_nan_r x : x + nan = nan.
Proof.
  apply nan_of_SF. rewrite FloatAxioms.add_spec.
  replace (Prim2SF nan) with S754_nan by reflexivity.
  by destruct (Prim2SF x) as [[]|[]| |[] ? ?].
Qed.

Lemma sub_nan_r x : x - nan = nan.
Proof.
  apply nan_of_SF. rewrite FloatAxioms.sub_spec.
  replace (Prim2SF nan) with S754_nan by reflexivity.
  by destruct (Prim2SF x) as [[]|[]| |[] ? ?].
Qed.

Lemma div_nan_l x : nan / x = nan.
Proof.
  apply nan_of_SF. rewrite FloatAxioms.div_spec.
  replace (Prim2SF nan) with S754_nan by reflexivity.
  by destruct (Prim2SF x) as [[]|[]| |[] ? ?].
Qed.

Lemma lookup_ema a old new j x y :
  old !! j = Some x -> new !! j = Some y ->
  ema a old new !! j = Some ((1 - a) * x + a * y).
Proof.
  intros Ho Hn. unfold ema, vadd, vscale.
  rewrite lookup_zip_with, !list_lookup_fmap, Ho, Hn. done.
Qed.

Lemma lookup_zscore f m s j x y z :
  f !! j = Some x -> m !! j = Some y -> s !! j = Some z ->
  zscore f m s !! j = Some ((x - y) / (z + 1e-9)).
Proof.
  intros Hf Hm Hs. unfold zscore, vdiv, vsub, vadd_scalar.
  rewrite !lookup_zip_with, list_lookup_fmap, Hf, Hm, Hs. done.
Qed.

(** One call that reaches the normalizer with [nan] in coordinate [j], of
    the mean or of the features. *)
Lemma update_stats_nan a m s f n j m1 s1 :
  length f = n ->
  (∀ m0, m = Some m0 -> length m0 = n) ->
  (∀ s0, s = Some s0 -> length s0 = n) ->
  (∃ m0, m = Some m0 ∧ m0 !! j = Some nan) ∨ f !! j = Some nan ->
  update_stats a m s f = (Some m1, Some s1) ->
  m1 !! j = Some nan ∧ zscore f m1 s1 !! j = Some nan.
Proof.
  intros Hf Hm Hs Hnan Hu.
  destruct (update_stats_shaped a m s f n m1 s1 Hf Hm Hs Hu) as [Hm1 Hs1].
  assert (j < n)%nat as Hj.
  { destruct Hnan as [(m0 & -> & Hj)|Hj]; apply lookup_lt_Some in Hj.
    - by rewrite (Hm m0 eq_refl) in Hj.
    - by rewrite Hf in Hj. }
  destruct (lookup_lt_is_Some_2 f j) as [x Hx]; [lia|].
  destruct (lookup_lt_is_Some_2 s1 j) as [z Hz]; [lia|].
  assert (m1 !! j = Some nan) as Hm1j.
  { unfold update_stats in Hu. destruct m as [m0|].
    - destruct s as [s0|]; [|done]. injection Hu as <- _.
      destruct (lookup_lt_is_Some_2 m0 j) as [y Hy];
        [rewrite (Hm m0 eq_refl); lia|].
      rewrite (lookup_ema _ _ _ _ _ _ Hy Hx). f_equal.
      destruct Hnan as [(? & [= <-] & Hj')|Hj'].
      + rewrite Hy in Hj'. injection Hj' as ->.
        by rewrite mul_nan_r, add_nan_l.
      + rewrite Hx in Hj'. injection Hj' as ->.
        by rewrite mul_nan_r, add_nan_r.
    - injection Hu as <- _. by destruct Hnan as [(? & [=] & _)|Hj']. }
  split; [done|].
  rewrite (lookup_zscore _ _ _ _ _ _ _ Hx Hm1j Hz).
  by rewrite sub_nan_r, div_nan_l.
Qed.

Definition nan_at (j : nat) (d : AnomalyDetector) : Prop :=
  ∃ m, mean d = Some m ∧ m !! j = Some nan.

Lemma get_score_nan d g data fs j :
  wf d -> shaped d ->
  nan_at j d ∨
    (∃ f, extract_features (feature_functions d) data fs = inr f ∧
          f !! j = Some nan) ->
  nan_at j (get_score d g data fs).1.1 ∧
  (nan_at j d ->
   ∀ out, normalized_features d data fs = Some out -> out !! j = Some nan) ∧
  (∀ f, extract_features (feature_functions d) data fs = inr f ->
     f !! j = Some nan ->
     ∃ out, normalized_features d data fs = Some out ∧ out !! j = Some nan).
Proof.
  intros Hwf [Hm Hs Hb] Hnan.
  destruct (extract_features (feature_functions d) data fs) as [e|f] eqn:Hex.
  - rewrite (get_score_unfed _ _ _ _ _ Hex). cbn [fst].
    destruct Hnan as [Hn|(f & [=] & _)]. split; [done|]. split; [|done].
    intros _ out. unfold normalized_features. by rewrite Hex.
  - pose proof (length_extract_features _ _ _ _ Hex) as Hf.
    destruct (wf_update_stats d f Hwf) as (m1 & s1 & Hu).
    assert ((∃ m0, mean d = Some m0 ∧ m0 !! j = Some nan) ∨ f !! j = Some nan)
      as Hor.
    { destruct Hnan as [Hn|(f' & [= <-] & Hj)]; [by left|by right]. }
    destruct (update_stats_nan _ _ _ _ _ j m1 s1 Hf Hm Hs Hor Hu) as [Hm1 Hout].
    assert (normalized_features d data fs = Some (zscore f m1 s1)) as Hnf
      by (unfold normalized_features; by rewrite Hex, Hu).
    split; [|split].
    + exists m1. split; [|done].
      unfold get_score. rewrite Hex, Hu. case_bool_decide; [done|].
      destruct (np_random_normal _ _ _ _) as [noise g1].
      by destruct (score_forest _ _ _ _ _) as [[ts g2] [e|sc]].
    + intros _ out. rewrite Hnf. by intros [= <-].
    + intros f' [= <-] _. eauto.
Qed.

Lemma run_nan later : ∀ d g j,
  wf d -> shaped d -> nan_at j d ->
  nan_at j (final (run d g later)) ∧
  Forall (fun out => out !! j = Some nan) (normalized_stream d g later).
Proof.
  induction later as [|[data fs] rest IH]; intros d g j Hwf Hsh Hnan.
  - split; [done|constructor].
  - cbn [run normalized_stream].
    pose proof (get_score_wf d g data fs Hwf) as Hwf1.
    pose proof (get_score_shaped d g data fs Hsh) as Hsh1.
    destruct (get_score_nan d g data fs j Hwf Hsh (or_introl Hnan))
      as (Hnan1 & Hout & _).
    destruct (get_score d g data fs) as [[d1 g1] r]. cbn [fst snd] in *.
    destruct (IH d1 g1 j Hwf1 Hsh1 Hnan1) as [Hfin Hall].
    destruct (run d1 g1 rest) as [[d2 g2] rs]. unfold final in *.
    cbn [fst snd] in *. split; [done|].
    apply Forall_app. split; [|done].
    destruct (normalized_features d data fs) as [out|]; cbn [option_list];
      [|constructor].
    constructor; [|constructor]. by apply Hout.
Qed.

(** X21.  [nan] is absorbing in the normalizer.  When a feature function
    returns [nan] in coordinate [j], in a call on a pipeline built by
    [__init__] in which all feature functions return, the mean has [nan]
    in that coordinate after the call, and after every later call; and the
    normalized vector of that call, and of every later call that reaches
    the normalizer, has [nan] in coordinate [j]. *)
Theorem nan_is_absorbing ffs K n cap g0 stream data fs f j later :
  extract_features ffs data fs = inr f ->
  f !! j = Some nan ->
  let before := run (init ffs K n cap) g0 stream in
  let after := run (init ffs K n cap) g0 (stream ++ (data, fs) :: later) in
  (∃ m, mean (final after) = Some m ∧ m !! j = Some nan) ∧
  Forall (fun out => out !! j = Some nan)
    (normalized_stream (final before) (final_rng before) ((data, fs) :: later)).
Proof.
  intros Hf Hj. cbv zeta.
  pose proof (run_wf stream (init ffs K n cap) g0 (init_wf _ _ _ _)) as Hwf.
  pose proof (run_config stream (init ffs K n cap) g0) as (Hff & _).
  simpl in Hff.
  assert (shaped (init ffs K n cap)) as Hs0 by (by split).
  pose proof (run_shaped stream (init ffs K n cap) g0 Hs0) as Hsh.
  assert (∀ s1 s2 d g, final (run d g (s1 ++ s2)) =
            final (run (final (run d g s1)) (final_rng (run d g s1)) s2))
    as Happ.
  { induction s1 as [|[c r] s1 IH1]; intros s2 d g; [done|].
    simpl. destruct (get_score d g c r) as [[d1 g1] r1].
    specialize (IH1 s2 d1 g1).
    destruct (run d1 g1 (s1 ++ s2)) as [[d2 g2] rs2].
    destruct (run d1 g1 s1) as [[d3 g3] rs3]. exact IH1. }
  rewrite Happ.
  set (d := final (run (init ffs K n cap) g0 stream)) in *.
  set (g := final_rng (run (init ffs K n cap) g0 stream)) in *.
  rewrite <- Hff in Hf.
  destruct (get_score_nan d g data fs j Hwf Hsh) as (Hnan1 & _ & Hout);
    [right; eauto|].
  destruct (Hout f Hf Hj) as (out & Hnf & Hoj).
  cbn [run normalized_stream]. rewrite Hnf. cbn [option_list app].
  pose proof (get_score_wf d g data fs Hwf) as Hwf1.
  pose proof (get_score_shaped d g data fs Hsh) as Hsh1.
  destruct (get_score d g data fs) as [[d1 g1] r]. cbn [fst snd] in *.
  destruct (run_nan later d1 g1 j Hwf1 Hsh1 Hnan1) as [Hfin Hall].
  destruct (run d1 g1 later) as [[d2 g2] rs]. unfold final in *.
  cbn [fst snd] in *. split; [exact Hfin|by constructor].
Qed.

End DetectorFacts.

(** ** The resampler of [mabiki_renketu.py] *)

Lemma pair_induction {A} (P : list A -> Prop) :
  P [] -> (∀ x, P [x]) -> (∀ x y l, P l -> P (x :: y :: l)) -> ∀ l, P l.
Proof.
  intros Hnil Hone Hstep.
  assert (∀ l, P l ∧ ∀ x, P (x :: l)) as Hboth.
  { induction l as [|y l [IH1 IH2]]; [by split|].
    split; [apply IH2|]. intros x. by apply Hstep. }
  intros l. apply Hboth.
Qed.

Lemma evens_lookup l i : evens l !! i = l !! (2 * i)%nat.
Proof.
  revert i. induction l as [| x | x y l IH] using pair_induction; intros i.
  - done.
  - by destruct i.
  - destruct i as [|i]; [done|]. cbn [evens lookup list_lookup].
    rewrite IH. replace (2 * S i)%nat with (S (S (2 * i))) by lia. done.
Qed.

Lemma odds_lookup l i : odds l !! i = l !! (2 * i + 1)%nat.
Proof.
  destruct l as [|x l]; [done|]. cbn [odds]. rewrite evens_lookup.
  by replace (2 * i + 1)%nat with (S (2 * i)) by lia.
Qed.

Lemma length_evens l : length (evens l) = (length l - length l / 2)%nat.
Proof.
  induction l as [| x | x y l IH] using pair_induction; [done|done|].
  cbn [evens length]. rewrite IH.
  replace (S (S (length l)) / 2)%nat with (S (length l / 2)).
  - pose proof (Nat.Div0.mul_div_le (length l) 2). lia.
  - change (S (S (length l))) with (2 + length l)%nat.
    replace (2 + length l)%nat with (length l + 1 * 2)%nat by lia.
    rewrite Nat.div_add by done. lia.
Qed.

Lemma length_odds l : length (odds l) = (length l / 2)%nat.
Proof.
  destruct l as [|x l]; [done|]. cbn [odds length]. rewrite length_evens.
  pose proof (Nat.div_mod_eq (length l) 2).
  pose proof (Nat.div_mod_eq (S (length l)) 2).
  pose proof (Nat.mod_upper_bound (length l) 2).
  pose proof (Nat.mod_upper_bound (S (length l)) 2). lia.
Qed.

(** X16.  The resampling halves the signal: the output has
    [len(raw) // 2] samples, sample [i] is the mean [(raw[2i] + raw[2i+1]) / 2]
    of one pair, and a last sample without partner is left out. *)
Theorem downsample_pairs raw :
  length (downsample raw) = (length raw / 2)%nat ∧
  ∀ i, (i < length raw / 2)%nat ->
    ∃ x y, raw !! (2 * i)%nat = Some x ∧ raw !! (2 * i + 1)%nat = Some y ∧
           downsample raw !! i = Some ((x + y) / 2).
Proof.
  unfold downsample.
  set (trimmed := if bool_decide (length raw mod 2 ≠ 0)%nat
                  then take (length raw - 1) raw else raw).
  pose proof (Nat.div_mod_eq (length raw) 2) as Hdm.
  pose proof (Nat.mod_upper_bound (length raw) 2 ltac:(done)) as Hmod.
  assert (length trimmed = (2 * (length raw / 2))%nat ∧
          ∀ j, (j < 2 * (length raw / 2))%nat -> trimmed !! j = raw !! j)
    as [Hlen Hsame].
  { subst trimmed. case_bool_decide as Hodd.
    - split; [rewrite length_take; lia|].
      intros j Hj. apply lookup_take_lt. lia.
    - split; [lia|done]. }
  assert (length trimmed / 2 = length raw / 2)%nat as Hhalf.
  { rewrite Hlen. replace (2 * (length raw / 2))%nat
      with (length raw / 2 * 2)%nat by lia. by rewrite Nat.div_mul. }
  split.
  - rewrite length_map. unfold vadd.
    rewrite length_zip_with, length_evens, length_odds, Hhalf, Hlen. lia.
  - intros i Hi.
    destruct (lookup_lt_is_Some_2 raw (2 * i)%nat) as [x Hx]; [lia|].
    destruct (lookup_lt_is_Some_2 raw (2 * i + 1)%nat) as [y Hy]; [lia|].
    exists x, y. split; [done|]. split; [done|].
    rewrite list_lookup_fmap. unfold vadd.
    rewrite lookup_zip_with, evens_lookup, odds_lookup.
    rewrite !Hsame by lia. rewrite Hx, Hy. done.
Qed.

Lemma block_lookup rs t r v :
  rs !! r = Some v ->
  block rs t !! r = Some (float_of_nat (r + t) * dt, v).
Proof.
  intros Hv. unfold block. cbv zeta.
  rewrite lookup_zip_with, list_lookup_fmap.
  rewrite lookup_seq_lt by (by apply lookup_lt_Some in Hv).
  simpl. by rewrite Hv.
Qed.

Lemma length_block rs t : length (block rs t) = length rs.
Proof.
  unfold block. cbv zeta. rewrite length_zip_with, length_map, length_seq. lia.
Qed.

Lemma write_blocks_lookup rs n : ∀ t r v,
  (r < n * length rs)%nat ->
  rs !! (r mod length rs)%nat = Some v ->
  write_blocks rs n t !! r = Some (float_of_nat (r + t) * dt, v).
Proof.
  induction n as [|n IH]; intros t r v Hr Hv; [simpl in Hr; lia|].
  cbn [write_blocks].
  destruct (decide (r < length rs)%nat) as [Hlt|Hge].
  - rewrite lookup_app_l by (by rewrite length_block).
    apply block_lookup. by rewrite Nat.mod_small in Hv.
  - rewrite lookup_app_r by (rewrite length_block; lia).
    rewrite length_block.
    replace (r + t)%nat with (r - length rs + (t + length rs))%nat by lia.
    apply IH; [simpl in Hr; lia|].
    replace r with (r - length rs + 1 * length rs)%nat in Hv by lia.
    by rewrite Nat.Div0.mod_add in Hv.
Qed.

Lemma length_write_blocks rs n t :
  length (write_blocks rs n t) = (n * length rs)%nat.
Proof.
  revert t. induction n as [|n IH]; intros t; [done|].
  cbn [write_blocks]. rewrite length_app, length_block, IH. simpl. lia.
Qed.

(** X17.  The file written repeats the resampled signal [num_repeats]
    times on one continuous time axis: it has
    [num_repeats * len(resampled)] rows, and row [r] holds the time
    [r * dt] and the sample [resampled[r mod len(resampled)]], across the
    borders of the repeats. *)
Theorem write_blocks_rows resampled num_repeats :
  length (write_blocks resampled num_repeats 0) =
    (num_repeats * length resampled)%nat ∧
  ∀ r, (r < num_repeats * length resampled)%nat ->
    ∃ v, resampled !! (r mod length resampled)%nat = Some v ∧
         write_blocks resampled num_repeats 0 !! r =
           Some (float_of_nat r * dt, v).
Proof.
  split; [apply length_write_blocks|].
  intros r Hr.
  assert (length resampled ≠ 0)%nat as Hne by (intros Hz; rewrite Hz in Hr; lia).
  destruct (lookup_lt_is_Some_2 resampled (r mod length resampled)%nat)
    as [v Hv]; [by apply Nat.mod_upper_bound|].
  exists v. split; [done|].
  rewrite (write_blocks_lookup resampled num_repeats 0 r v Hr Hv).
  by rewrite Nat.add_0_r.
Qed.

Section ReadRowsFacts.
Variable strip : string -> string.
Variable py_float : string -> option float.

Lemma read_rows_unmarked row rest flag acc :
  unmarked strip row ->
  read_rows strip py_float (row :: rest) flag acc =
  read_rows strip py_float rest flag
    (if flag then acc ++ option_list (value_of py_float row) else acc).
Proof.
  intros [He Hb]. destruct row as [|field0 fields].
  - cbn [read_rows]. destruct flag; [|done]. unfold value_of. simpl.
    by rewrite app_nil_r.
  - cbn [read_rows]. cbv zeta. cbn [tag_of] in He, Hb.
    destruct (String.eqb_spec (strip field0) "#EndHeader") as [Heq|_];
      [by rewrite Heq in He|].
    destruct (String.eqb_spec (strip field0) "#BeginMark") as [Heq|_];
      [by rewrite Heq in Hb|].
    destruct flag; [|done]. unfold value_of.
    destruct ((field0 :: fields) !! 2%nat) as [field2|]; simpl.
    + destruct (py_float field2); simpl; [done|by rewrite app_nil_r].
    + by rewrite app_nil_r.
Qed.

Lemma read_rows_header header : ∀ rest acc,
  Forall (unmarked strip) header ->
  read_rows strip py_float (header ++ rest) false acc =
  read_rows strip py_float rest false acc.
Proof.
  induction header as [|row header IH]; intros rest acc Hall; [done|].
  apply Forall_cons in Hall as [Hrow Hall]. cbn [app].
  rewrite read_rows_unmarked by done. by apply IH.
Qed.

Lemma read_rows_body body : ∀ rest acc,
  Forall (unmarked strip) body ->
  read_rows strip py_float (body ++ rest) true acc =
  read_rows strip py_float rest true (acc ++ omap (value_of py_float) body).
Proof.
  induction body as [|row body IH]; intros rest acc Hall.
  - simpl. by rewrite app_nil_r.
  - apply Forall_cons in Hall as [Hrow Hall]. cbn [app].
    rewrite read_rows_unmarked by done. rewrite IH by done.
    f_equal. rewrite <- app_assoc. f_equal.
    change (omap (value_of py_float) (row :: body)) with
      (match value_of py_float row with
       | Some x => x :: omap (value_of py_float) body
       | None => omap (value_of py_float) body
       end).
    by destruct (value_of py_float row).
Qed.

(** X18.  Of a file made of a header, a row tagged [#EndHeader], data rows,
    a row tagged [#BeginMark] and anything after it, the reader keeps the
    third field of each data row that [float] accepts, in order: nothing
    from the header, nothing from rows that are too short or hold no
    number, nothing after the mark. *)
Theorem read_rows_well_formed header end_header body begin_mark trailer :
  Forall (unmarked strip) header ->
  tag_of strip end_header = Some "#EndHeader"%string ->
  Forall (unmarked strip) body ->
  tag_of strip begin_mark = Some "#BeginMark"%string ->
  read_rows strip py_float
    (header ++ end_header :: body ++ begin_mark :: trailer) false []
  = omap (value_of py_float) body.
Proof.
  intros Hh He Hb Hm.
  rewrite read_rows_header by done.
  destruct end_header as [|e0 es]; [done|]. injection He as He.
  cbn [read_rows]. cbv zeta. rewrite He. cbn [String.eqb Ascii.eqb Bool.eqb].
  rewrite read_rows_body by done.
  destruct begin_mark as [|b0 bs]; [done|]. injection Hm as Hm.
  cbn [read_rows]. cbv zeta. rewrite Hm. done.
Qed.

(** X19.  [process_and_save_waveform] writes nothing exactly when the
    reader found no number; otherwise it writes
    [num_repeats * (len(raw_data) // 2)] rows. *)
Theorem process_result_size rows num_repeats :
  let raw_data := read_rows strip py_float rows false [] in
  (process_and_save_waveform strip py_float rows num_repeats = None
     <-> raw_data = []) ∧
  ∀ written,
    process_and_save_waveform strip py_float rows num_repeats = Some written ->
    length written = (num_repeats * (length raw_data / 2))%nat.
Proof.
  cbv zeta. unfold process_and_save_waveform.
  destruct (read_rows strip py_float rows false []) as [|x raw] eqn:Hraw.
  - split; [done|]. by intros ? [=].
  - split; [split; by intros [=]|].
    intros written [= <-].
    rewrite length_write_blocks.
    by destruct (downsample_pairs (x :: raw)) as [-> _].
Qed.

End ReadRowsFacts.

(** ** The root mean square of [vibe_analyzer.py] *)

Lemma sqrt_not_negative x : (PrimFloat.sqrt x <? 0) = false.
Proof.
  rewrite FloatAxioms.ltb_spec, FloatAxioms.sqrt_spec.
  replace (Prim2SF 0) with (S754_zero false) by reflexivity.
  unfold SF64sqrt, SFsqrt.
  destruct (Prim2SF x) as [sg|sg| |sg m e]; try (by destruct sg); [done|].
  destruct sg; [done|].
  destruct (SFsqrt_core_binary _ _ _ _) as [[mz ez] lz].
  unfold binary_round_aux.
  destruct (shr_fexp _ _ _ _ _) as [mrs e'].
  destruct (shr_fexp _ _ _ _ _) as [mrs' e''].
  destruct (shr_m mrs') as [|p|p]; [done| |done].
  by destruct (_ <=? _)%Z.
Qed.

(** X20.  [calc_rms] never raises and never returns a negative number,
    whatever the chunk holds; for an empty chunk it returns [nan]. *)
Theorem calc_rms_not_negative data rate :
  (∃ v, fn_call calc_rms data rate = inr v ∧ (v <? 0) = false) ∧
  fn_call calc_rms [] rate = inr nan.
Proof.
  split; [|reflexivity]. eexists. split; [reflexivity|].
  apply sqrt_not_negative.
Qed.

(** ** The claims on concrete calls *)
Module Examples.
Import Reference Scenario.

(** Eleven points into one tree of capacity 10: the tree holds ten points
    and the point of index 0 is gone. *)
Example eleven_insertions :
  let d := final (run (init [calc_rms] 1 1 10) seed (replicate 11 (chunk, fs))) in
  total_points d = 11%nat ∧
  map (fun t => size (leaves t)) (forest d) = [10%nat] ∧
  map (fun t => bool_decide (0%nat ∈ leaves t)) (forest d) = [false] ∧
  map (fun t => bool_decide (leaves t = list_to_set (seq 1 10))) (forest d)
    = [true].
Proof. vm_compute. repeat split; reflexivity. Qed.

(** A constant signal: the mean stays at the feature value, every output
    is zero and the deviation decays. *)
Example constant_signal :
  extract_features [calc_rms] [2; 2] fs = inr [2] ∧
  normalized_stream detector seed [([2; 2], fs); ([2; 2], fs)] = [[0]; [0]] ∧
  mean (final (run detector seed [([2; 2], fs); ([2; 2], fs)])) = Some [2] ∧
  std (final (run detector seed [([2; 2], fs); ([2; 2], fs)])) = Some [0.99].
Proof. vm_compute. repeat split; reflexivity. Qed.

(** An empty chunk after a chunk of two samples, shingle size 1 and
    capacity 10: the root mean square of no samples is [nan], the tree
    holds a point and refuses the new one.  The call raises, the counter
    stays at 1, the tree keeps its one point; the buffer has the vector of
    the failed call. *)
Example nan_point_refused :
  let after := run (init [calc_rms] 1 1 10) seed [(chunk, fs); ([], fs)] in
  results after = [Score 0; Raised OverflowError] ∧
  total_points (final after) = 1%nat ∧
  map (fun t => size (leaves t)) (forest (final after)) = [1%nat] ∧
  shingle_buffer (final after) = [[nan]].
Proof. vm_compute. repeat split; reflexivity. Qed.

(** Capacity 2 and a third chunk that is empty: the tree has forgotten
    index 0 when the insertion raises, and is left with index 1 alone. *)
Example forgotten_before_refused :
  let after :=
    run (init [calc_rms] 1 1 2) seed [(chunk, fs); ([3; 4], fs); ([], fs)] in
  results after = [Score 0; Score 1; Raised OverflowError] ∧
  total_points (final after) = 2%nat ∧
  map (fun t => bool_decide (leaves t = {[ 1%nat ]})) (forest (final after))
    = [true].
Proof. vm_compute. repeat split; reflexivity. Qed.

(** With capacity 0 the first call of a pipeline with shingle size 1, its
    [K]-th call, raises from [min] instead of returning a score. *)
Lemma capacity_zero_raises :
  results (run no_room seed [(chunk, fs)]) = [Raised ValueError].
Proof. vm_compute. reflexivity. Qed.

(** Shingle size 3: not ready, not ready, score; the third call is read
    off the theorem. *)
Lemma readiness_gating_witness :
  results (run detector seed three_chunks) !! 2%nat = Some (Score 0) ∧
  three_chunks !! 2%nat = Some (chunk, fs) ∧
  fed [calc_rms] (take 3 three_chunks) = 3%nat ∧
  ((∃ v, Score 0 = Score v) ∨
   (∃ e, Score 0 = Raised e ∧
         ((e = ValueError ∧ 10%nat = 0%nat) ∨ rrcf_raises e))).
Proof.
  assert (results (run detector seed three_chunks) !! 2%nat = Some (Score 0))
    as Hcall by (vm_compute; reflexivity).
  assert (three_chunks !! 2%nat = Some (chunk, fs)) as Hchunk by reflexivity.
  assert (fed [calc_rms] (take 3 three_chunks) = 3%nat) as Hfed
    by (vm_compute; reflexivity).
  split; [exact Hcall|]. split; [exact Hchunk|]. split; [exact Hfed|].
  destruct (readiness_gating [calc_rms] 3 5 10 seed three_chunks 2 (Score 0)
              chunk fs Hcall Hchunk) as (_ & Hfrom & _).
  destruct (Hfrom _ eq_refl) as [_ Hscore].
  apply Hscore. rewrite Hfed. lia.
Defined.

(** The third point in two trees: each tree reports 2, the score is 2. *)
Lemma score_is_mean_codisp_witness :
  third.2 = Score 2 ∧
  ∃ codisps,
    Forall2 (fun t c => codisp t (total_points (final warm)) = inr c)
      (forest third.1.1) codisps ∧
    2 = np_sum codisps / float_of_nat (length (forest third.1.1)).
Proof.
  assert (third.2 = Score 2) as Hcall by (vm_compute; reflexivity).
  split; [exact Hcall|].
  destruct (score_is_mean_codisp (final warm) (final_rng warm) [3; 4] fs
              2 Hcall) as (codisps & Hc & Hv & _).
  exists codisps. split; [exact Hc|exact Hv].
Defined.

(** The first call on an empty chunk: the root mean square of no samples
    is [nan], and so is the output of the normalizer. *)
Lemma first_output_nan :
  extract_features [calc_rms] [] fs = inr [nan] ∧
  normalized_features one_point [] fs = Some [nan] ∧
  shingle_buffer (get_score one_point seed [] fs).1.1 = [[nan]].
Proof. vm_compute. repeat split; reflexivity. Qed.

(** With capacity 0 the call builds its shingle (the buffer is full) and
    raises in the loop: the counter stays at 0 and no tree has the point. *)
Lemma capacity_zero_counter :
  (get_score no_room seed chunk fs).2 = Raised ValueError ∧
  length (shingle_buffer (get_score no_room seed chunk fs).1.1) = 1%nat ∧
  total_points (get_score no_room seed chunk fs).1.1 = 0%nat ∧
  forest (get_score no_room seed chunk fs).1.1 = [[]].
Proof. vm_compute. repeat split; reflexivity. Qed.

(** The not-ready call and the first scored call of one stream return the
    same value. *)
Lemma warmup_zero_is_score_zero :
  results (run pair seed [(chunk, fs); (chunk, fs)]) = [NotReady; Score 0] ∧
  map returned (results (run pair seed [(chunk, fs); (chunk, fs)])) =
    [Some 0; Some 0].
Proof. vm_compute. split; reflexivity. Qed.

(** The second call of the pipeline with shingle size 3. *)
Lemma not_ready_returns_zero_witness :
  results (run detector seed three_chunks) !! 1%nat = Some NotReady ∧
  three_chunks !! 1%nat = Some (chunk, fs) ∧
  extracts [calc_rms] (chunk, fs) = true ∧
  (fed [calc_rms] (take 2 three_chunks) < 3)%nat ∧
  returned NotReady = Some 0 ∧
  returned NotReady = returned (Score 0).
Proof.
  assert (results (run detector seed three_chunks) !! 1%nat = Some NotReady)
    as Hcall by (vm_compute; reflexivity).
  assert (three_chunks !! 1%nat = Some (chunk, fs)) as Hchunk by reflexivity.
  assert (extracts [calc_rms] (chunk, fs) = true) as Hx by reflexivity.
  assert (fed [calc_rms] (take 2 three_chunks) = 2%nat) as Hfed
    by (vm_compute; reflexivity).
  assert (fed [calc_rms] (take 2 three_chunks) < 3)%nat as Hlt
    by (rewrite Hfed; lia).
  split; [exact Hcall|]. split; [exact Hchunk|]. split; [exact Hx|].
  split; [exact Hlt|].
  destruct (not_ready_returns_zero [calc_rms] 3 5 10 seed three_chunks 1
              NotReady chunk fs Hcall Hchunk Hx Hlt) as (_ & H0 & Hsame & _).
  split; [exact H0|exact Hsame].
Defined.

(** An empty chunk as the only call of a pipeline with shingle size 1 is
    scored. *)
Lemma empty_chunk_scored :
  results (run one_point seed [([], fs)]) = [Score 0].
Proof. vm_compute. reflexivity. Qed.

(** The first call of the pipeline with shingle size 3. *)
Lemma not_ready_frame_witness :
  first.2 = NotReady ∧
  ∃ f m1 s1,
    extract_features (feature_functions detector) chunk fs = inr f ∧
    update_stats (alpha detector) (mean detector) (std detector) f
      = (Some m1, Some s1) ∧
    mean first.1.1 = Some m1 ∧ std first.1.1 = Some s1 ∧
    shingle_buffer first.1.1 = shingle_buffer detector ++ [zscore f m1 s1] ∧
    (length (shingle_buffer first.1.1) < shingle_size detector)%nat ∧
    total_points first.1.1 = total_points detector ∧
    forest first.1.1 = forest detector ∧
    first.1.2 = seed.
Proof.
  assert (first.2 = NotReady) as Hcall by (vm_compute; reflexivity).
  split; [exact Hcall|].
  exact (not_ready_frame detector seed chunk fs Hcall).
Defined.

End Examples.

(** ** The further facts on concrete calls *)
Module Runs.
Import Reference Scenario.

(** Three messages to the receiver, one of which cannot be decoded. *)
Definition messages : list (option vec) := [Some chunk; None; Some chunk].

(** One message of 2500 samples and one that cannot be decoded. *)
Definition full_window : list (option vec) := [Some (replicate 2500 1); None].

(** A signal of one window and one sample more. *)
Definition signal : vec := replicate 2501 1.

(** A file in the format read by [process_and_save_waveform], with fields
    already stripped and a [float] that reads two numerals. *)
Definition parse (field : string) : option float :=
  if String.eqb field "1.5" then Some 1.5
  else if String.eqb field "2.5" then Some 2.5
  else None.

Definition file_header : list (list string) := [["Model"; "X"]; []].
Definition file_body : list (list string) :=
  [["t"; "0"; "1.5"]; ["short"]; ["t"; "0"; "volt"]; ["t"; "1"; "2.5"]].
Definition file_trailer : list (list string) := [["t"; "2"; "1.5"]].

(** The pipeline with shingle size 3: no call raises, and after the one
    scored point every tree holds index 0. *)
Lemma forest_holds_last_indices_witness :
  Forall2 (answered [calc_rms]) three_chunks
    (results (run detector seed three_chunks)) ∧
  Forall (fun t => leaves t =
            window 10 (total_points (final (run detector seed three_chunks))))
    (forest (final (run detector seed three_chunks))).
Proof.
  assert (Forall2 (answered [calc_rms]) three_chunks
            (results (run detector seed three_chunks))) as Hall.
  { assert (results (run detector seed three_chunks)
            = [NotReady; NotReady; Score 0]) as -> by (vm_compute; reflexivity).
    repeat constructor. }
  split; [exact Hall|].
  exact (proj1 (forest_holds_last_indices [calc_rms] 3 5 10 seed three_chunks
                  Hall)).
Defined.

(** The pipeline with the root mean square alone, once at the rate of the
    scenario and once at rate 0. *)
Lemma sampling_rate_ignored_witness :
  Forall (fun f => fn_name f ∉ ["calc_spectral_centroid"; "calc_centroid"])
    [calc_rms] ∧
  results (run (init [calc_rms] 3 5 10) seed three_chunks) =
  results (run (init [calc_rms] 3 5 10) seed
             (map (fun c => (c.1, 0)) three_chunks)).
Proof.
  assert (Forall (fun f => fn_name f ∉ ["calc_spectral_centroid"; "calc_centroid"])
            [calc_rms]) as Hnames.
  { apply Forall_cons. split; [|apply List.Forall_nil].
    intros Hin. apply elem_of_cons in Hin as [Heq|Hin]; [discriminate|].
    apply elem_of_cons in Hin as [Heq|Hin]; [discriminate|].
    by apply elem_of_nil in Hin. }
  split; [exact Hnames|].
  exact (sampling_rate_ignored [calc_rms] 3 5 10 seed three_chunks 0 Hnames).
Defined.

(** One tree of capacity 0 and shingle size 1. *)
Lemma capacity_zero_always_raises_witness :
  (0 < 1)%nat ∧
  (∀ i r data rate,
     results (run no_room seed [(chunk, fs)]) !! i = Some r ->
     [(chunk, fs)] !! i = Some (data, rate) ->
     (∀ e, extract_features [calc_rms] data rate = inl e -> r = Raised e) ∧
     (∀ f, extract_features [calc_rms] data rate = inr f ->
        ((fed [calc_rms] (take (S i) [(chunk, fs)]) < 1)%nat -> r = NotReady) ∧
        ((1 ≤ fed [calc_rms] (take (S i) [(chunk, fs)]))%nat ->
           r = Raised ValueError))) ∧
  total_points (final (run no_room seed [(chunk, fs)])) = 0%nat ∧
  forest (final (run no_room seed [(chunk, fs)])) = replicate 1 RCTree_new.
Proof.
  split; [lia|].
  exact (capacity_zero_always_raises [calc_rms] 1 1 seed [(chunk, fs)]
           ltac:(lia)).
Defined.

(** No tree and shingle size 1: the first call returns [nan]. *)
Lemma empty_forest_scores_nan_witness :
  results (run (init [calc_rms] 1 0 10) seed [(chunk, fs)]) !! 0%nat
    = Some (Score nan) ∧
  [(chunk, fs)] !! 0%nat = Some (chunk, fs) ∧
  (1 ≤ fed [calc_rms] (take 1 [(chunk, fs)]))%nat ∧
  Score nan = Score nan ∧ returned (Score nan) = Some nan.
Proof.
  assert (results (run (init [calc_rms] 1 0 10) seed [(chunk, fs)]) !! 0%nat
          = Some (Score nan)) as Hcall by (vm_compute; reflexivity).
  assert ([(chunk, fs)] !! 0%nat = Some (chunk, fs)) as Hchunk by reflexivity.
  assert (fed [calc_rms] (take 1 [(chunk, fs)]) = 1%nat) as Hfed
    by (vm_compute; reflexivity).
  assert (1 ≤ fed [calc_rms] (take 1 [(chunk, fs)]))%nat as Hge
    by (rewrite Hfed; lia).
  split; [exact Hcall|]. split; [exact Hchunk|]. split; [exact Hge|].
  destruct (empty_forest_scores_nan [calc_rms] 1 10 seed [(chunk, fs)] 0
              (Score nan) chunk fs Hcall Hchunk) as (_ & Hfrom).
  destruct (Hfrom _ eq_refl) as [_ Hnan]. exact (Hnan Hge).
Defined.

(** Two recorded messages: both flags are [False]. *)
Lemma no_flag_during_warmup_witness :
  message_count (receive (receiver_start Scenario.detector) seed messages).1
    = 2%nat ∧
  Forall (fun flag => flag = false)
    (anomaly_flags
       (receive (receiver_start Scenario.detector) seed messages).1) ∧
  (WARMUP_TIME <=? clock 299) = false ∧ (WARMUP_TIME <=? clock 300) = true.
Proof.
  assert (message_count
            (receive (receiver_start Scenario.detector) seed messages).1
          = 2%nat) as Hcount by (vm_compute; reflexivity).
  split; [exact Hcount|].
  apply (no_flag_during_warmup Scenario.detector seed messages).
  rewrite Hcount. lia.
Defined.

(** One window of 2500 samples. *)
Lemma waveform_aligned_witness :
  Forall (fun c => length c = 2500%nat) (decodable full_window) ∧
  length (waveform_data_all
            (receive (receiver_start Scenario.detector) seed full_window).1) =
  (length (score_history
             (receive (receiver_start Scenario.detector) seed full_window).1)
   * 2500)%nat.
Proof.
  assert (Forall (fun c => length c = 2500%nat) (decodable full_window))
    as Hall.
  { apply Forall_cons. split; [apply length_replicate|apply List.Forall_nil]. }
  split; [exact Hall|].
  exact (waveform_aligned Scenario.detector seed full_window Hall).
Defined.

(** A signal of 2501 samples through sender and receiver: one chunk, on
    which the call returns. *)
Lemma sender_to_receiver_witness :
  Forall (fun r => is_raised r = false)
    (results (run (init [calc_rms] 3 5 10) seed
                (map (fun c => (c, FS)) (start_sender signal)))) ∧
  message_count
    (receive (receiver_start (init [calc_rms] 3 5 10)) seed
       (map Some (start_sender signal))).1
  = (length signal / WINDOW_SIZE)%nat ∧
  ((length (start_sender signal) ≤ MAX_PLOT_POINTS)%nat ->
   waveform_data_all
     (receive (receiver_start (init [calc_rms] 3 5 10)) seed
        (map Some (start_sender signal))).1
   = take (length (start_sender signal) * WINDOW_SIZE) signal).
Proof.
  assert (Forall (fun r => is_raised r = false)
            (results (run (init [calc_rms] 3 5 10) seed
                        (map (fun c => (c, FS)) (start_sender signal)))))
    as Hall.
  { assert (results (run (init [calc_rms] 3 5 10) seed
                       (map (fun c => (c, FS)) (start_sender signal)))
            = [NotReady]) as -> by (vm_compute; reflexivity).
    repeat constructor. }
  split; [exact Hall|].
  destruct (sender_to_receiver [calc_rms] 3 5 10 seed signal Hall)
    as (Hcount & _ & _ & Hwave).
  split; [exact Hcount|exact Hwave].
Defined.

(** A file with two header rows, four data rows of which two hold a
    number, and a row after the mark. *)
Lemma read_rows_well_formed_witness :
  Forall (unmarked id) file_header ∧
  tag_of id ["#EndHeader"%string] = Some "#EndHeader"%string ∧
  Forall (unmarked id) file_body ∧
  tag_of id ["#BeginMark"%string] = Some "#BeginMark"%string ∧
  read_rows id parse
    (file_header ++ ["#EndHeader"%string] :: file_body ++
     ["#BeginMark"%string] :: file_trailer) false []
  = [1.5; 2.5].
Proof.
  assert (Forall (unmarked id) file_header) as Hh.
  { repeat (apply Forall_cons; split; [by split|]). apply List.Forall_nil. }
  assert (Forall (unmarked id) file_body) as Hb.
  { repeat (apply Forall_cons; split; [by split|]). apply List.Forall_nil. }
  split; [exact Hh|]. split; [reflexivity|].
  split; [exact Hb|]. split; [reflexivity|].
  exact (read_rows_well_formed id parse file_header ["#EndHeader"%string]
           file_body ["#BeginMark"%string] file_trailer
           Hh eq_refl Hb eq_refl).
Defined.

End Runs.
